(** * reki: an undo stack, verified against its TypeScript source

    The development embeds [src/index.ts] in a small JavaScript-like store:
    arrays live in a heap and are addressed by reference, because the source
    mixes copying ([[...state.undos, command]]) with in-place updates
    ([state.undos.pop()], [stack.shift()]) and hands the same array to more
    than one state object.  State and option objects are only ever built
    afresh by the source (object literals and spreads), so they are values
    here.  The callbacks of a command are opaque client code: they read and
    write a client world [W], return a value or throw, and never touch the
    arrays of the library. *)

From stdpp Require Import base list strings.
From Stdlib Require Import ZArith Lia.

Set Default Proof Using "Type".
Open Scope Z_scope.

(** ** Results of a call: a value, or an exception in flight *)

Inductive Outcome (E A : Type) : Type :=
  | Returned (a : A)
  | Thrown (e : E).
Arguments Returned {E A} a.
Arguments Thrown {E A} e.

(** ** Options

    [maxStackSize?: number].  An object literal may leave the key out, or
    carry it with the value [undefined], or with a number; the spread in
    [createStack] tells the first two apart.  Numbers are taken in [Z].
    The source only tests the bound for truthiness and compares a
    length with it, so a bound that is no integer acts as an integer
    one does: from 1 upwards as its integer part, and between 0 and 1 as
    the negative bounds, being truthy and below every length of a stack
    that was pushed on.  Hypotheses on the bound are therefore put as
    "at least 1" where a bound between 0 and 1 would break them. *)

Record Options : Type := mkOptions {
  maxStackSize : option (option Z)
}.

(** Reading [options.maxStackSize]: a missing key reads as [undefined]. *)
Definition get_maxStackSize (o : Options) : option Z :=
  match maxStackSize o with
  | Some (Some n) => Some n
  | Some None | None => None
  end.

(** [{ maxStackSize: 10, ...options }]: own keys of [options] win, also
    when the value they carry is [undefined]. *)
Definition spread_defaults (options : Options) : Options :=
  match maxStackSize options with
  | Some v => mkOptions (Some v)
  | None => mkOptions (Some (Some 10))
  end.

(** [options.maxStackSize && length > options.maxStackSize]: [undefined]
    and [0] are falsy, every other integer is truthy. *)
Definition exceeds (o : Options) (length : nat) : bool :=
  match get_maxStackSize o with
  | Some n => negb (n =? 0) && (Z.of_nat length >? n)
  | None => false
  end.

(** A bound that is [undefined] or a number of at least 1: where it
    lets the shift run, the stack holds two commands or more. *)
Definition bound_at_least_one (o : Options) : Prop :=
  ∀ k, get_maxStackSize o = Some k → 1 ≤ k.

(** Room for [n] commands: no bound, or the bound zero that the guard
    reads as none, or a bound of at least [n]. *)
Definition roomy (o : Options) (n : nat) : Prop :=
  match get_maxStackSize o with
  | Some k => k = 0 ∨ Z.of_nat n ≤ k
  | None => True
  end.

Section Reki.

(** [T] is the managed value, [W] the client state the callbacks close
    over, [E] the exceptions they may throw. *)
Context {T W E : Type}.

(** ** Commands

    [name?], [undo] and [execute]; the two callbacks are prefixed here,
    [undo] and [execute] being the transitions below. *)

Record Command : Type := mkCommand {
  name : option string;
  cmd_undo : W → Outcome E T * W;
  cmd_execute : W → Outcome E T * W
}.

(** Which callback of which command was invoked. *)
Inductive Call : Type :=
  | Forward (c : Command)
  | Inverse (c : Command).

(** ** States and the store *)

Definition ref := nat.

Record State : Type := mkState {
  current : T;
  options : Options;
  undos : ref;
  redos : ref
}.

Record Machine : Type := mkMachine {
  world : W;
  heap : list (list Command);
  calls : list Call
}.

(** Content of the array behind a reference. *)
Definition read (r : ref) (h : list (list Command)) : list Command :=
  default [] (h !! r).

Definition stack_undos (s : State) (m : Machine) : list Command :=
  read (undos s) (heap m).
Definition stack_redos (s : State) (m : Machine) : list Command :=
  read (redos s) (heap m).

(** ** Computations over the store *)

Definition M (A : Type) : Type := Machine → Outcome E A * Machine.

Definition ret {A} (a : A) : M A := λ m, (Returned a, m).

Definition bind {A B} (c : M A) (k : A → M B) : M B :=
  λ m, match c m with
       | (Returned a, m') => k a m'
       | (Thrown e, m') => (Thrown e, m')
       end.

Notation "x <- c ;; k" := (bind c (λ x, k))
  (at level 100, c at next level, right associativity).
Notation "c ;;; k" := (bind c (λ _, k))
  (at level 100, right associativity).

(** An array literal: a new array at the next free reference. *)
Definition new_array (l : list Command) : M ref :=
  λ m, (Returned (length (heap m)),
        mkMachine (world m) (heap m ++ [l]) (calls m)).

Definition get_array (r : ref) : M (list Command) :=
  λ m, (Returned (read r (heap m)), m).

Definition set_array (r : ref) (l : list Command) : M unit :=
  λ m, (Returned tt, mkMachine (world m) (<[r := l]> (heap m)) (calls m)).

(** [arr.length] *)
Definition array_length (r : ref) : M nat :=
  l <- get_array r ;; ret (length l).

(** [arr.pop()]: takes the last element off the array itself;
    [undefined] on an empty array. *)
Definition array_pop (r : ref) : M (option Command) :=
  l <- get_array r ;;
  set_array r (removelast l) ;;;
  ret (last l).

(** [arr.shift()]: takes the first element off the array itself. *)
Definition array_shift (r : ref) : M unit :=
  l <- get_array r ;;
  set_array r (tail l).

(** [[...arr, command]]: a new array, [arr] is only read. *)
Definition spread_push (r : ref) (command : Command) : M ref :=
  l <- get_array r ;;
  new_array (l ++ [command]).

(** Invoking a callback: it runs on the client world, is recorded, and
    its exception, if any, is in flight from here. *)
Definition invoke (which : Call) (f : W → Outcome E T * W) : M T :=
  λ m, let (o, w) := f (world m) in
       (o, mkMachine w (heap m) (calls m ++ [which])).

(** ** The library *)

Definition createStack (initial : T) (opts : option Options) : M State :=
  let options := match opts with Some o => o | None => mkOptions None end in
  undos <- new_array [] ;;
  redos <- new_array [] ;;
  ret (mkState initial (spread_defaults options) undos redos).

(** The guarded [stack.shift()] shared by the three transitions. *)
Definition shift_if_exceeds (o : Options) (stack : ref) : M unit :=
  len <- array_length stack ;;
  if exceeds o len then array_shift stack else ret tt.

Definition execute (state : State) (command : Command) : M State :=
  current <- invoke (Forward command) (cmd_execute command) ;;
  stack <- spread_push (undos state) command ;;
  shift_if_exceeds (options state) stack ;;;
  redos <- new_array [] ;;
  ret (mkState current (options state) stack redos).

Definition undo (state : State) : M State :=
  n <- array_length (undos state) ;;
  if (n =? 0)%nat then ret state else
  popped <- array_pop (undos state) ;;
  match popped with
  | None => ret state
  | Some command =>
      current <- invoke (Inverse command) (cmd_undo command) ;;
      stack <- spread_push (redos state) command ;;
      shift_if_exceeds (options state) stack ;;;
      ret (mkState current (options state) (undos state) stack)
  end.

Definition redo (state : State) : M State :=
  n <- array_length (redos state) ;;
  if (n =? 0)%nat then ret state else
  popped <- array_pop (redos state) ;;
  match popped with
  | None => ret state
  | Some command =>
      current <- invoke (Forward command) (cmd_execute command) ;;
      stack <- spread_push (undos state) command ;;
      shift_if_exceeds (options state) stack ;;;
      ret (mkState current (options state) stack (redos state))
  end.

Definition clear (state : State) : M State :=
  undos <- new_array [] ;;
  redos <- new_array [] ;;
  ret (mkState (current state) (options state) undos redos).

Definition can_undo (state : State) : M bool :=
  n <- array_length (undos state) ;; ret (0 <? n)%nat.
Definition can_redo (state : State) : M bool :=
  n <- array_length (redos state) ;; ret (0 <? n)%nat.

(** ** Programs of a client

    A client calls the transitions on the state it holds and keeps the
    state that is returned ([state = undo(state)]). *)

Inductive Action : Type :=
  | DoExecute (command : Command)
  | DoUndo
  | DoRedo
  | DoClear.

Definition step (a : Action) (state : State) : M State :=
  match a with
  | DoExecute command => execute state command
  | DoUndo => undo state
  | DoRedo => redo state
  | DoClear => clear state
  end.

Fixpoint run (acts : list Action) (state : State) : M State :=
  match acts with
  | [] => ret state
  | a :: rest => state' <- step a state ;; run rest state'
  end.

(** What the guarded shift leaves of a freshly built stack. *)
Definition evict (o : Options) (stack : list Command) : list Command :=
  if exceeds o (length stack) then tail stack else stack.

(** A whole session: [createStack], then the calls one after another. *)
Definition session (initial : T) (opts : option Options)
    (acts : list Action) : M State :=
  state <- createStack initial opts ;; run acts state.

(** What a client sees of a result: the value and the two stacks. *)
Definition observe (res : Outcome E State * Machine)
    : option (T * list Command * list Command) :=
  match res with
  | (Returned s, m) => Some (current s, stack_undos s m, stack_redos s m)
  | (Thrown _, _) => None
  end.

(** A command whose callbacks return fixed values and touch nothing,
    like the commands of the test suite. *)
Definition constant (forward backward : T) : Command :=
  mkCommand None (λ w, (Returned backward, w)) (λ w, (Returned forward, w)).

(** A returning call that evicted nothing: the stacks after it hold
    what they held before, plus the one command pushed and less the one
    popped. *)
Definition nothing_evicted (a : Action) (s : State) (m : Machine)
    (s' : State) (m' : Machine) : Prop :=
  match a with
  | DoExecute op =>
      stack_undos s' m' = stack_undos s m ++ [op] ∧ stack_redos s' m' = []
  | DoUndo =>
      (stack_undos s m = [] ∧ s' = s ∧ m' = m) ∨
      (∃ c, stack_undos s m = stack_undos s' m' ++ [c] ∧
            stack_redos s' m' = stack_redos s m ++ [c])
  | DoRedo =>
      (stack_redos s m = [] ∧ s' = s ∧ m' = m) ∨
      (∃ c, stack_redos s m = stack_redos s' m' ++ [c] ∧
            stack_undos s' m' = stack_undos s m ++ [c])
  | DoClear =>
      stack_undos s' m' = [] ∧ stack_redos s' m' = []
  end.

(** A callback that returns, whatever the world it runs in. *)
Definition always_returns (f : W → Outcome E T * W) : Prop :=
  ∀ w, ∃ v w', f w = (Returned v, w').

(** ** Reachable stores

    A client may hold on to every state it was ever handed, call any
    transition on any of them, catch what a callback throws, and change
    its own world between two calls.  [reach m pool]: the store [m] and
    the states [pool] in the client's hands can arise that way. *)

Inductive reach : Machine → list State → Prop :=
  | reach_start m :
      reach m []
  | reach_create m pool initial opts s m' :
      reach m pool →
      createStack initial opts m = (Returned s, m') →
      reach m' (s :: pool)
  | reach_step m pool a s s' m' :
      reach m pool → s ∈ pool →
      step a s m = (Returned s', m') →
      reach m' (s' :: pool)
  | reach_caught m pool a s e m' :
      reach m pool → s ∈ pool →
      step a s m = (Thrown e, m') →
      reach m' pool
  | reach_client m pool w :
      reach m pool →
      reach (mkMachine w (heap m) (calls m)) pool.

(** The arrays of a state exist and are two different arrays. *)
Definition valid (s : State) (m : Machine) : Prop :=
  (undos s < length (heap m))%nat ∧ (redos s < length (heap m))%nat ∧
  undos s ≠ redos s.

(** The invariant of a state under a positive bound: its two stacks
    together hold no more than the bound. *)
Definition within_bound (s : State) (m : Machine) : Prop :=
  ∀ k, get_maxStackSize (options s) = Some k → 0 < k →
       Z.of_nat (length (stack_undos s m) + length (stack_redos s m)) ≤ k.

Definition inv (m : Machine) (s : State) : Prop :=
  valid s m ∧ within_bound s m.

(** Arrays are never dropped and never grow once allocated. *)
Definition heap_le (h h' : list (list Command)) : Prop :=
  (length h ≤ length h')%nat ∧
  ∀ r, (r < length h)%nat → (length (read r h') ≤ length (read r h))%nat.

End Reki.

Arguments Command : clear implicits.
Arguments Call : clear implicits.
Arguments State : clear implicits.
Arguments Machine : clear implicits.
Arguments Action : clear implicits.
Arguments M : clear implicits.

(** * The test suite's commands *)

Module Counter.

Definition Cmd : Type := Command Z bool string.

Definition boot : Machine Z bool string := mkMachine false [] [].

(** [{ execute: () => ({ value }), undo: () => ({ value: value - 1 }) }] *)
Definition set_to (value : Z) : Cmd := constant value (value - 1).

(** [{ execute: () => ({ value: 20 }), undo: () => ({ value: 10 }) }] *)
Definition command : Cmd := constant 20 10.

(** [{ execute: () => ({ value: 10 }), undo: () => ({ value: 4 }) }] *)
Definition newCommand : Cmd := constant 10 4.

(** A command whose inverse callback throws. *)
Definition fragile : Cmd :=
  mkCommand None (λ w, (Thrown "undo failed"%string, w))
                 (λ w, (Returned 20, w)).

(** A command whose forward callback throws while the client's flag is
    up, the flag being the world these commands close over. *)
Definition flaky : Cmd :=
  mkCommand None (λ w, (Returned 10, w))
    (λ w : bool, if w then (Thrown "execute failed"%string, w)
                 else (Returned 20, w)).

(** A command whose inverse callback does not give back the value that
    was current before it ran. *)
Definition lossy : Cmd := constant 2 7.

(** A command that sets the value to what it already is. *)
Definition keep : Cmd := constant 20 20.

(** The state and store that [createStack(10)] leaves on [boot]. *)
Definition fresh : State Z :=
  mkState 10 (mkOptions (Some (Some 10))) 0%nat 1%nat.
Definition fresh_store : Machine Z bool string :=
  mkMachine false [[]; []] [].

(** The state and store after [execute(createStack(10), command)]. *)
Definition executed : State Z :=
  mkState 20 (mkOptions (Some (Some 10))) 2%nat 3%nat.
Definition executed_store : Machine Z bool string :=
  mkMachine false [[]; []; [command]; []] [Forward command].

(** The state and store after [undo] of the former. *)
Definition undone : State Z :=
  mkState 10 (mkOptions (Some (Some 10))) 2%nat 4%nat.
Definition undone_store : Machine Z bool string :=
  mkMachine false [[]; []; []; []; [command]]
    [Forward command; Inverse command].

(** The state and store after [execute(createStack(10), fragile)]. *)
Definition armed : State Z :=
  mkState 20 (mkOptions (Some (Some 10))) 2%nat 3%nat.
Definition armed_store : Machine Z bool string :=
  mkMachine false [[]; []; [fragile]; []] [Forward fragile].

(** The state and store after [undo(execute(createStack(10), flaky))],
    and the same store once the client has raised its flag. *)
Definition parked : State Z :=
  mkState 10 (mkOptions (Some (Some 10))) 2%nat 4%nat.
Definition parked_store : Machine Z bool string :=
  mkMachine false [[]; []; []; []; [flaky]] [Forward flaky; Inverse flaky].
Definition parked_store_flagged : Machine Z bool string :=
  mkMachine true (heap parked_store) (calls parked_store).

(** The state that [createStack(0, { maxStackSize: 0 })] leaves on
    [boot], with [fresh_store]. *)
Definition zeroed : State Z :=
  mkState 0 (mkOptions (Some (Some 0))) 0%nat 1%nat.

(** The state and store after [execute(createStack(20), keep)]. *)
Definition kept : State Z :=
  mkState 20 (mkOptions (Some (Some 10))) 2%nat 3%nat.
Definition kept_store : Machine Z bool string :=
  mkMachine false [[]; []; [keep]; []] [Forward keep].

(** The state and store after executing [set_to 1] and [lossy] on
    [createStack(0)] and undoing once. *)
Definition astray : State Z :=
  mkState 7 (mkOptions (Some (Some 10))) 4%nat 6%nat.
Definition astray_store : Machine Z bool string :=
  mkMachine false [[]; []; [set_to 1]; []; [set_to 1]; []; [lossy]]
    [Forward (set_to 1); Forward lossy; Inverse lossy].

Definition with_max (n : Z) : option Options :=
  Some (mkOptions (Some (Some n))).

(** [{ maxStackSize: undefined }] *)
Definition with_undefined : option Options :=
  Some (mkOptions (Some None)).

(** The four commands of the test of [maxStackSize]. *)
Definition four : list (Action Z bool string) :=
  [DoExecute (set_to 1); DoExecute (set_to 2);
   DoExecute (set_to 3); DoExecute (set_to 4)].

(** The state that [createStack(0, { maxStackSize: 3 })] leaves on
    [boot], with [fresh_store], and the state and store after the four
    commands. *)
Definition bounded : State Z :=
  mkState 0 (mkOptions (Some (Some 3))) 0%nat 1%nat.
Definition filled : State Z :=
  mkState 4 (mkOptions (Some (Some 3))) 8%nat 9%nat.
Definition filled_store : Machine Z bool string :=
  mkMachine false
    [[]; []; [set_to 1]; []; [set_to 1; set_to 2]; [];
     [set_to 1; set_to 2; set_to 3]; [];
     [set_to 2; set_to 3; set_to 4]; []]
    [Forward (set_to 1); Forward (set_to 2);
     Forward (set_to 3); Forward (set_to 4)].

(** The state that [createStack(0, { maxStackSize: -1 })] leaves on
    [boot], with [fresh_store]. *)
Definition negated : State Z :=
  mkState 0 (mkOptions (Some (Some (-1)))) 0%nat 1%nat.

End Counter.

(** * Properties *)

Section Facts.

Context {T W E : Type}.

Implicit Types (s : State T) (m : Machine T W E).
Implicit Types (c op : Command T W E) (l : list (Command T W E)).
Implicit Types (h : list (list (Command T W E))) (r : ref).
Implicit Types (a : Action T W E) (acts : list (Action T W E)).
Implicit Types (pool : list (State T)) (o : Options).

(** ** Reading the store *)

Lemma read_new h l : read (length h) (h ++ [l]) = l.
Proof.
  unfold read. rewrite lookup_app_r by lia.
  by rewrite Nat.sub_diag.
Qed.

Lemma read_old h l r : r ≠ length h → read r (h ++ [l]) = read r h.
Proof.
  intros Hr. unfold read.
  destruct (decide (r < length h)%nat) as [Hlt|Hge].
  - by rewrite lookup_app_l.
  - rewrite (lookup_ge_None_2 h) by lia.
    rewrite lookup_ge_None_2; [done|]. rewrite length_app. simpl. lia.
Qed.

Lemma read_insert_eq h r l : (r < length h)%nat → read r (<[r := l]> h) = l.
Proof. intros Hr. unfold read. by rewrite list_lookup_insert_eq. Qed.

Lemma read_insert_ne h r r' l : r ≠ r' → read r' (<[r := l]> h) = read r' h.
Proof. intros Hr. unfold read. by rewrite list_lookup_insert_ne. Qed.

Lemma read_nonempty_valid h r : read r h ≠ [] → (r < length h)%nat.
Proof.
  unfold read. intros Hne.
  destruct (h !! r) as [l|] eqn:Hr; simpl in *; [|congruence].
  by eapply lookup_lt_Some.
Qed.

Lemma insert_new h l l' :
  <[length h := l']> (h ++ [l]) = h ++ [l'].
Proof.
  replace (length h) with (length h + 0)%nat at 1 by lia.
  by rewrite insert_app_r.
Qed.

(** ** The transitions as equations on the store *)

Lemma shift_if_exceeds_new o l m :
  shift_if_exceeds o (length (heap m)) (mkMachine (world m) (heap m ++ [l]) (calls m))
  = (Returned tt, mkMachine (world m) (heap m ++ [evict o l]) (calls m)).
Proof.
  unfold shift_if_exceeds, array_length, array_shift, get_array, set_array,
    bind, ret, evict. simpl.
  rewrite read_new. destruct (exceeds o (length l)); [|done].
  simpl. by rewrite read_new, insert_new.
Qed.

Lemma createStack_eq initial opts m :
  createStack initial opts m =
    (Returned (mkState initial
                 (spread_defaults (default (mkOptions None) opts))
                 (length (heap m)) (S (length (heap m)))),
     mkMachine (world m) (heap m ++ [[]; []]) (calls m)).
Proof.
  unfold createStack, new_array, bind, ret. simpl.
  rewrite length_app, <- app_assoc. simpl.
  replace (length (heap m) + 1)%nat with (S (length (heap m))) by lia.
  by destruct opts.
Qed.

Lemma clear_eq s m :
  clear s m =
    (Returned (mkState (current s) (options s)
                 (length (heap m)) (S (length (heap m)))),
     mkMachine (world m) (heap m ++ [[]; []]) (calls m)).
Proof.
  unfold clear, new_array, bind, ret. simpl.
  rewrite length_app, <- app_assoc. simpl.
  by replace (length (heap m) + 1)%nat with (S (length (heap m))) by lia.
Qed.

Lemma execute_eq s c m :
  execute s c m =
    match cmd_execute c (world m) with
    | (Returned v, w) =>
        (Returned (mkState v (options s)
                     (length (heap m)) (S (length (heap m)))),
         mkMachine w
           (heap m ++ [evict (options s) (stack_undos s m ++ [c]); []])
           (calls m ++ [Forward c]))
    | (Thrown e, w) =>
        (Thrown e, mkMachine w (heap m) (calls m ++ [Forward c]))
    end.
Proof.
  unfold execute, invoke. unfold bind at 1.
  destruct (cmd_execute c (world m)) as [[v|e] w]; [|done].
  unfold bind at 1. unfold spread_push, get_array, new_array, bind at 1.
  simpl. unfold bind at 1.
  pose proof (shift_if_exceeds_new (options s)
    (read (undos s) (heap m) ++ [c])
    (mkMachine w (heap m) (calls m ++ [Forward c]))) as Hs.
  simpl in Hs. rewrite Hs. unfold bind, ret. simpl.
  rewrite length_app, <- app_assoc. simpl.
  by replace (length (heap m) + 1)%nat with (S (length (heap m))) by lia.
Qed.

Lemma last_Some_length l c :
  last l = Some c → (length l =? 0)%nat = false.
Proof.
  intros [l' ->]%last_Some. rewrite length_app. simpl.
  apply Nat.eqb_neq. lia.
Qed.

Lemma undo_eq s m :
  undo s m =
    match last (stack_undos s m) with
    | None => (Returned s, m)
    | Some c =>
        let h := <[undos s := removelast (stack_undos s m)]> (heap m) in
        match cmd_undo c (world m) with
        | (Returned v, w) =>
            (Returned (mkState v (options s) (undos s) (length (heap m))),
             mkMachine w
               (h ++ [evict (options s) (read (redos s) h ++ [c])])
               (calls m ++ [Inverse c]))
        | (Thrown e, w) =>
            (Thrown e, mkMachine w h (calls m ++ [Inverse c]))
        end
    end.
Proof.
  unfold undo, stack_undos, array_length, array_pop, get_array, set_array.
  unfold bind at 1 2. unfold ret at 1.
  destruct (last (read (undos s) (heap m))) as [c|] eqn:Hlast.
  - rewrite (last_Some_length _ _ Hlast).
    unfold bind at 1 2 3. unfold ret at 1. rewrite Hlast.
    unfold invoke. unfold bind at 1. simpl.
    destruct (cmd_undo c (world m)) as [[v|e] w]; [|done].
    unfold bind at 1. unfold spread_push, get_array, new_array, bind at 1.
    simpl. unfold bind at 1.
    set (h := <[undos s := removelast (read (undos s) (heap m))]> (heap m)).
    pose proof (shift_if_exceeds_new (options s) (read (redos s) h ++ [c])
      (mkMachine w h (calls m ++ [Inverse c]))) as Hs.
    simpl in Hs. rewrite Hs. unfold ret. simpl.
    subst h. by rewrite length_insert.
  - apply last_None in Hlast. by rewrite Hlast.
Qed.

Lemma redo_eq s m :
  redo s m =
    match last (stack_redos s m) with
    | None => (Returned s, m)
    | Some c =>
        let h := <[redos s := removelast (stack_redos s m)]> (heap m) in
        match cmd_execute c (world m) with
        | (Returned v, w) =>
            (Returned (mkState v (options s) (length (heap m)) (redos s)),
             mkMachine w
               (h ++ [evict (options s) (read (undos s) h ++ [c])])
               (calls m ++ [Forward c]))
        | (Thrown e, w) =>
            (Thrown e, mkMachine w h (calls m ++ [Forward c]))
        end
    end.
Proof.
  unfold redo, stack_redos, array_length, array_pop, get_array, set_array.
  unfold bind at 1 2. unfold ret at 1.
  destruct (last (read (redos s) (heap m))) as [c|] eqn:Hlast.
  - rewrite (last_Some_length _ _ Hlast).
    unfold bind at 1 2 3. unfold ret at 1. rewrite Hlast.
    unfold invoke. unfold bind at 1. simpl.
    destruct (cmd_execute c (world m)) as [[v|e] w]; [|done].
    unfold bind at 1. unfold spread_push, get_array, new_array, bind at 1.
    simpl. unfold bind at 1.
    set (h := <[redos s := removelast (read (redos s) (heap m))]> (heap m)).
    pose proof (shift_if_exceeds_new (options s) (read (undos s) h ++ [c])
      (mkMachine w h (calls m ++ [Forward c]))) as Hs.
    simpl in Hs. rewrite Hs. unfold ret. simpl.
    subst h. by rewrite length_insert.
  - apply last_None in Hlast. by rewrite Hlast.
Qed.

Lemma heap_le_refl h : heap_le h h.
Proof. split; [lia|]. intros; lia. Qed.

Lemma heap_le_trans h1 h2 h3 : heap_le h1 h2 → heap_le h2 h3 → heap_le h1 h3.
Proof.
  intros [Hl1 Hr1] [Hl2 Hr2]. split; [lia|].
  intros r Hr. specialize (Hr1 r Hr).
  assert (r < length h2)%nat as Hr' by lia.
  specialize (Hr2 r Hr'). lia.
Qed.

Lemma heap_le_app h h' : heap_le h (h ++ h').
Proof.
  split; [rewrite length_app; lia|].
  intros r Hr. unfold read. by rewrite lookup_app_l.
Qed.

Lemma length_removelast l :
  length (removelast l) = pred (length l).
Proof.
  destruct l as [|x l] using rev_ind; [done|].
  rewrite removelast_last, length_app. simpl. lia.
Qed.

Lemma heap_le_pop h r : heap_le h (<[r := removelast (read r h)]> h).
Proof.
  split; [by rewrite length_insert|].
  intros r' Hr'. destruct (decide (r = r')) as [<-|Hne].
  - rewrite read_insert_eq by done. rewrite length_removelast. lia.
  - by rewrite read_insert_ne.
Qed.

Lemma inv_heap_le s m m' :
  inv m s → heap_le (heap m) (heap m') → inv m' s.
Proof.
  intros [(Hu & Hr & Hne) Hb] [Hlen Hle]. split.
  - repeat split; [lia | lia | done].
  - intros k Hk Hpos. specialize (Hb k Hk Hpos).
    unfold stack_undos, stack_redos in *.
    pose proof (Hle _ Hu). pose proof (Hle _ Hr). lia.
Qed.

Lemma length_evict o l :
  (length (evict o l) ≤ length l)%nat.
Proof.
  unfold evict. destruct (exceeds o (length l)); [|lia].
  destruct l; simpl; lia.
Qed.

Lemma step_heap_le a s m :
  heap_le (heap m) (heap (step a s m).2).
Proof.
  destruct a as [c| | |]; cbn [step].
  - rewrite execute_eq.
    destruct (cmd_execute c (world m)) as [[v|e] w]; simpl.
    + apply heap_le_app.
    + apply heap_le_refl.
  - rewrite undo_eq. destruct (last (stack_undos s m)) as [c|]; simpl.
    + destruct (cmd_undo c (world m)) as [[v|e] w]; simpl.
      * eapply heap_le_trans; [apply heap_le_pop | apply heap_le_app].
      * apply heap_le_pop.
    + apply heap_le_refl.
  - rewrite redo_eq. destruct (last (stack_redos s m)) as [c|]; simpl.
    + destruct (cmd_execute c (world m)) as [[v|e] w]; simpl.
      * eapply heap_le_trans; [apply heap_le_pop | apply heap_le_app].
      * apply heap_le_pop.
    + apply heap_le_refl.
  - rewrite clear_eq. simpl. apply heap_le_app.
Qed.

(** ** What a returning transition leaves behind *)

Lemma read_new2_fst h x y :
  read (length h) (h ++ [x; y]) = x.
Proof.
  change (h ++ [x; y]) with (h ++ [x] ++ [y]). rewrite app_assoc.
  rewrite read_old by (rewrite length_app; simpl; lia).
  apply read_new.
Qed.

Lemma read_new2_snd h x y :
  read (S (length h)) (h ++ [x; y]) = y.
Proof.
  change (h ++ [x; y]) with (h ++ [x] ++ [y]). rewrite app_assoc.
  replace (S (length h)) with (length (h ++ [x]))
    by (rewrite length_app; simpl; lia).
  apply read_new.
Qed.

Lemma read_old2 h x y r :
  (r < length h)%nat → read r (h ++ [x; y]) = read r h.
Proof. intros Hr. unfold read. by rewrite lookup_app_l. Qed.

Lemma execute_returns s c m v w :
  cmd_execute c (world m) = (Returned v, w) →
  let s' := mkState v (options s) (length (heap m)) (S (length (heap m))) in
  let m' := mkMachine w
              (heap m ++ [evict (options s) (stack_undos s m ++ [c]); []])
              (calls m ++ [Forward c]) in
  execute s c m = (Returned s', m') ∧
  stack_undos s' m' = evict (options s) (stack_undos s m ++ [c]) ∧
  stack_redos s' m' = [].
Proof.
  intros Hc. simpl. rewrite execute_eq, Hc. split; [done|].
  unfold stack_undos, stack_redos. simpl.
  by rewrite read_new2_fst, read_new2_snd.
Qed.

Lemma undo_returns s m l c v w :
  undos s ≠ redos s →
  stack_undos s m = l ++ [c] →
  cmd_undo c (world m) = (Returned v, w) →
  let s' := mkState v (options s) (undos s) (length (heap m)) in
  let m' := mkMachine w
              (<[undos s := l]> (heap m)
                 ++ [evict (options s) (stack_redos s m ++ [c])])
              (calls m ++ [Inverse c]) in
  undo s m = (Returned s', m') ∧
  stack_undos s' m' = l ∧
  stack_redos s' m' = evict (options s) (stack_redos s m ++ [c]).
Proof.
  intros Hne Hl Hc. simpl.
  assert (undos s < length (heap m))%nat as Hu.
  { apply read_nonempty_valid. unfold stack_undos in Hl. rewrite Hl.
    by destruct l. }
  rewrite undo_eq, Hl, last_snoc, removelast_last. simpl. rewrite Hc.
  unfold stack_redos. rewrite read_insert_ne by done.
  split; [done|]. unfold stack_undos, stack_redos. simpl. split.
  - rewrite read_old by (rewrite length_insert; lia).
    by rewrite read_insert_eq.
  - rewrite <- (length_insert (heap m) (undos s) l). apply read_new.
Qed.

Lemma redo_returns s m l c v w :
  undos s ≠ redos s →
  stack_redos s m = l ++ [c] →
  cmd_execute c (world m) = (Returned v, w) →
  let s' := mkState v (options s) (length (heap m)) (redos s) in
  let m' := mkMachine w
              (<[redos s := l]> (heap m)
                 ++ [evict (options s) (stack_undos s m ++ [c])])
              (calls m ++ [Forward c]) in
  redo s m = (Returned s', m') ∧
  stack_undos s' m' = evict (options s) (stack_undos s m ++ [c]) ∧
  stack_redos s' m' = l.
Proof.
  intros Hne Hl Hc. simpl.
  assert (redos s < length (heap m))%nat as Hu.
  { apply read_nonempty_valid. unfold stack_redos in Hl. rewrite Hl.
    by destruct l. }
  rewrite redo_eq, Hl, last_snoc, removelast_last. simpl. rewrite Hc.
  unfold stack_undos. rewrite read_insert_ne by done.
  split; [done|]. unfold stack_undos, stack_redos. simpl. split.
  - rewrite <- (length_insert (heap m) (redos s) l). apply read_new.
  - rewrite read_old by (rewrite length_insert; lia).
    by rewrite read_insert_eq.
Qed.

Lemma undo_empty s m : stack_undos s m = [] → undo s m = (Returned s, m).
Proof. intros Hl. by rewrite undo_eq, Hl. Qed.

Lemma redo_empty s m : stack_redos s m = [] → redo s m = (Returned s, m).
Proof. intros Hl. by rewrite redo_eq, Hl. Qed.

(** ** The guard of the shift *)

Lemma exceeds_positive o k n :
  get_maxStackSize o = Some k → 0 < k →
  exceeds o n = (k <? Z.of_nat n).
Proof.
  intros Hk Hpos. unfold exceeds. rewrite Hk.
  replace (k =? 0) with false by (symmetry; apply Z.eqb_neq; lia).
  simpl. by rewrite Z.gtb_ltb.
Qed.

Lemma evict_fits o l k :
  get_maxStackSize o = Some k → 0 < k → Z.of_nat (length l) ≤ k →
  evict o l = l.
Proof.
  intros Hk Hpos Hl. unfold evict. rewrite (exceeds_positive _ k) by done.
  replace (k <? Z.of_nat (length l)) with false; [done|].
  symmetry. apply Z.ltb_ge. lia.
Qed.

Lemma evict_within o l k :
  get_maxStackSize o = Some k → 0 < k → Z.of_nat (length l) ≤ k + 1 →
  Z.of_nat (length (evict o l)) ≤ k.
Proof.
  intros Hk Hpos Hl. unfold evict. rewrite (exceeds_positive _ k) by done.
  destruct (k <? Z.of_nat (length l)) eqn:Hlt.
  - destruct l; simpl in *; lia.
  - apply Z.ltb_ge in Hlt. lia.
Qed.

Lemma evict_unset o l :
  get_maxStackSize o = None → evict o l = l.
Proof. intros Hk. unfold evict, exceeds. by rewrite Hk. Qed.

Lemma evict_zero o l :
  get_maxStackSize o = Some 0 → evict o l = l.
Proof. intros Hk. unfold evict, exceeds. by rewrite Hk. Qed.

(** ** The invariant along reachable stores *)

Lemma createStack_inv initial opts m s m' :
  createStack initial opts m = (Returned s, m') → inv m' s.
Proof.
  rewrite createStack_eq. intros [= <- <-]. split.
  - unfold valid. simpl. rewrite length_app. simpl. lia.
  - intros k _ Hpos. unfold stack_undos, stack_redos. simpl.
    rewrite read_new2_fst, read_new2_snd. simpl. lia.
Qed.

Lemma step_inv a s m s' m' :
  inv m s → step a s m = (Returned s', m') → inv m' s'.
Proof.
  intros [(Hu & Hr & Hne) Hb] Hstep.
  destruct a as [c| | |]; cbn [step] in Hstep.
  - destruct (cmd_execute c (world m)) as [[v|e] w] eqn:Hc;
      [|by rewrite execute_eq, Hc in Hstep].
    destruct (execute_returns s c m v w Hc) as (Heq & Hus & Hrs).
    rewrite Heq in Hstep. injection Hstep as <- <-. split.
    + unfold valid. simpl. rewrite length_app. simpl. lia.
    + intros k Hk Hpos. rewrite Hus, Hrs. simpl in *.
      specialize (Hb k Hk Hpos).
      pose proof (evict_within (options s) (stack_undos s m ++ [c]) k Hk Hpos)
        as Hev.
      rewrite length_app in Hev. simpl in Hev. lia.
  - destruct (last (stack_undos s m)) as [c|] eqn:Hlast.
    + apply last_Some in Hlast as [l Hl].
      destruct (cmd_undo c (world m)) as [[v|e] w] eqn:Hc;
        [|by rewrite undo_eq, Hl, last_snoc, Hc in Hstep].
      destruct (undo_returns s m l c v w Hne Hl Hc) as (Heq & Hus & Hrs).
      rewrite Heq in Hstep. injection Hstep as <- <-. split.
      * unfold valid. simpl. rewrite length_app, length_insert. simpl. lia.
      * intros k Hk Hpos. rewrite Hus, Hrs. simpl in *.
        specialize (Hb k Hk Hpos). rewrite Hl, length_app in Hb.
        simpl in Hb.
        pose proof (length_evict (options s) (stack_redos s m ++ [c])) as Hev.
        rewrite length_app in Hev. simpl in Hev. lia.
    + apply last_None in Hlast. rewrite (undo_empty _ _ Hlast) in Hstep.
      injection Hstep as <- <-. by split.
  - destruct (last (stack_redos s m)) as [c|] eqn:Hlast.
    + apply last_Some in Hlast as [l Hl].
      destruct (cmd_execute c (world m)) as [[v|e] w] eqn:Hc;
        [|by rewrite redo_eq, Hl, last_snoc, Hc in Hstep].
      destruct (redo_returns s m l c v w Hne Hl Hc) as (Heq & Hus & Hrs).
      rewrite Heq in Hstep. injection Hstep as <- <-. split.
      * unfold valid. simpl. rewrite length_app, length_insert. simpl. lia.
      * intros k Hk Hpos. rewrite Hus, Hrs. simpl in *.
        specialize (Hb k Hk Hpos). rewrite Hl, length_app in Hb.
        simpl in Hb.
        pose proof (length_evict (options s) (stack_undos s m ++ [c])) as Hev.
        rewrite length_app in Hev. simpl in Hev. lia.
    + apply last_None in Hlast. rewrite (redo_empty _ _ Hlast) in Hstep.
      injection Hstep as <- <-. by split.
  - rewrite clear_eq in Hstep. injection Hstep as <- <-. split.
    + unfold valid. simpl. rewrite length_app. simpl. lia.
    + intros k _ Hpos. unfold stack_undos, stack_redos. simpl.
      rewrite read_new2_fst, read_new2_snd. simpl. lia.
Qed.

Lemma reach_inv m pool : reach m pool → Forall (inv m) pool.
Proof.
  induction 1 as [m | m pool initial opts s m' _ IH Hc
                 | m pool a s s' m' _ IH Hin Hstep
                 | m pool a s e m' _ IH Hin Hstep
                 | m pool w _ IH].
  - constructor.
  - constructor; [by eapply createStack_inv|].
    eapply Forall_impl; [exact IH|]. intros s0 Hs0.
    eapply inv_heap_le; [exact Hs0|].
    revert Hc. rewrite createStack_eq. intros [= _ <-]. apply heap_le_app.
  - pose proof (step_heap_le a s m) as Hle. rewrite Hstep in Hle.
    constructor.
    + eapply step_inv; [|exact Hstep].
      by eapply (proj1 (Forall_forall _ _) IH).
    + eapply Forall_impl; [exact IH|]. intros s0 Hs0.
      by eapply inv_heap_le.
  - pose proof (step_heap_le a s m) as Hle. rewrite Hstep in Hle.
    eapply Forall_impl; [exact IH|]. intros s0 Hs0.
    by eapply inv_heap_le.
  - eapply Forall_impl; [exact IH|]. intros s0 Hs0.
    eapply inv_heap_le; [exact Hs0|]. apply heap_le_refl.
Qed.

(** A client that threads one state through a list of calls stays
    within the reachable stores. *)
Lemma run_reach acts : ∀ s m pool s' m',
  reach m pool → s ∈ pool →
  run acts s m = (Returned s', m') →
  ∃ pool', reach m' pool' ∧ s' ∈ pool'.
Proof.
  induction acts as [|a acts IH]; intros s m pool s' m' Hreach Hin Hrun.
  - injection Hrun as <- <-. eauto.
  - cbn [run] in Hrun. unfold bind in Hrun.
    destruct (step a s m) as [[s1|e] m1] eqn:Hstep; [|done].
    eapply (IH s1 m1 (s1 :: pool)); [|left|exact Hrun].
    by eapply reach_step.
Qed.

(** ** What the transitions do to arrays they were handed *)

(** [execute] and [clear] only allocate: every array that existed keeps
    its content, whatever the outcome. *)
Lemma execute_frame s c m r :
  (r < length (heap m))%nat →
  read r (heap (execute s c m).2) = read r (heap m).
Proof.
  intros Hr. rewrite execute_eq.
  destruct (cmd_execute c (world m)) as [[v|e] w]; simpl; [|done].
  by apply read_old2.
Qed.

Lemma clear_frame s m r :
  (r < length (heap m))%nat →
  read r (heap (clear s m).2) = read r (heap m).
Proof. intros Hr. rewrite clear_eq. simpl. by apply read_old2. Qed.

(** A throwing forward callback leaves [execute] with the heap as it
    found it. *)
Lemma execute_throws s c m e w :
  cmd_execute c (world m) = (Thrown e, w) →
  execute s c m = (Thrown e, mkMachine w (heap m) (calls m ++ [Forward c])).
Proof. intros Hc. by rewrite execute_eq, Hc. Qed.

(** [undo] takes the last command off the very array of the state it
    was handed, and does so before the inverse callback runs: the array
    is shorter whether the callback returns or throws. *)
Lemma undo_pops_input s m l c :
  stack_undos s m = l ++ [c] →
  stack_undos s (undo s m).2 = l.
Proof.
  intros Hl.
  assert (undos s < length (heap m))%nat as Hu.
  { apply read_nonempty_valid. unfold stack_undos in Hl. rewrite Hl.
    by destruct l. }
  rewrite undo_eq, Hl, last_snoc, removelast_last. simpl.
  unfold stack_undos.
  destruct (cmd_undo c (world m)) as [[v|e] w]; simpl.
  - rewrite read_old by (rewrite length_insert; lia).
    by rewrite read_insert_eq.
  - by rewrite read_insert_eq.
Qed.

Lemma redo_pops_input s m l c :
  stack_redos s m = l ++ [c] →
  stack_redos s (redo s m).2 = l.
Proof.
  intros Hl.
  assert (redos s < length (heap m))%nat as Hu.
  { apply read_nonempty_valid. unfold stack_redos in Hl. rewrite Hl.
    by destruct l. }
  rewrite redo_eq, Hl, last_snoc, removelast_last. simpl.
  unfold stack_redos.
  destruct (cmd_execute c (world m)) as [[v|e] w]; simpl.
  - rewrite read_old by (rewrite length_insert; lia).
    by rewrite read_insert_eq.
  - by rewrite read_insert_eq.
Qed.

(** A session is one way of reaching a store. *)
Lemma session_reach initial opts acts m0 s m :
  session initial opts acts m0 = (Returned s, m) →
  ∃ pool, reach m pool ∧ s ∈ pool.
Proof.
  unfold session, bind.
  destruct (createStack initial opts m0) as [[s0|e] m1] eqn:Hc; [|done].
  intros Hrun. eapply (run_reach acts s0 m1 [s0]); [|left|exact Hrun].
  eapply reach_create; [apply reach_start|exact Hc].
Qed.

(** ** Options travel unchanged *)

Lemma step_options a s m s' m' :
  step a s m = (Returned s', m') → options s' = options s.
Proof.
  destruct a as [c| | |]; cbn [step].
  - rewrite execute_eq.
    destruct (cmd_execute c (world m)) as [[v|e] w]; [|done].
    by intros [= <- _].
  - rewrite undo_eq. destruct (last (stack_undos s m)) as [c|].
    + simpl. destruct (cmd_undo c (world m)) as [[v|e] w]; [|done].
      by intros [= <- _].
    + by intros [= <- _].
  - rewrite redo_eq. destruct (last (stack_redos s m)) as [c|].
    + simpl. destruct (cmd_execute c (world m)) as [[v|e] w]; [|done].
      by intros [= <- _].
    + by intros [= <- _].
  - rewrite clear_eq. by intros [= <- _].
Qed.

Lemma run_options acts : ∀ s m s' m',
  run acts s m = (Returned s', m') → options s' = options s.
Proof.
  induction acts as [|a acts IH]; intros s m s' m' Hrun.
  - by injection Hrun as <- _.
  - cbn [run] in Hrun. unfold bind in Hrun.
    destruct (step a s m) as [[s1|e] m1] eqn:Hstep; [|done].
    rewrite (IH _ _ _ _ Hrun). by eapply step_options.
Qed.

Lemma run_inv acts : ∀ s m s' m',
  inv m s → run acts s m = (Returned s', m') → inv m' s'.
Proof.
  induction acts as [|a acts IH]; intros s m s' m' Hinv Hrun.
  - by injection Hrun as <- <-.
  - cbn [run] in Hrun. unfold bind in Hrun.
    destruct (step a s m) as [[s1|e] m1] eqn:Hstep; [|done].
    eapply IH; [|exact Hrun]. by eapply step_inv.
Qed.

Lemma session_eq initial opts acts m :
  session initial opts acts m =
    run acts
      (mkState initial (spread_defaults (default (mkOptions None) opts))
         (length (heap m)) (S (length (heap m))))
      (mkMachine (world m) (heap m ++ [[]; []]) (calls m)).
Proof. unfold session, bind. by rewrite createStack_eq. Qed.

Lemma session_inv initial opts acts m0 s m :
  session initial opts acts m0 = (Returned s, m) →
  inv m s ∧ options s = spread_defaults (default (mkOptions None) opts).
Proof.
  rewrite session_eq. intros Hrun. split.
  - eapply run_inv; [|exact Hrun].
    eapply createStack_inv. apply createStack_eq.
  - by rewrite (run_options _ _ _ _ _ Hrun).
Qed.

(** ** Calls that evict nothing *)

Lemma step_nothing_evicted a s m s' m' :
  (∀ l, evict (options s) l = l) →
  undos s ≠ redos s →
  step a s m = (Returned s', m') →
  nothing_evicted a s m s' m'.
Proof.
  intros Hev Hne Hstep. destruct a as [c| | |]; cbn [step] in Hstep; simpl.
  - destruct (cmd_execute c (world m)) as [[v|e] w] eqn:Hc;
      [|by rewrite execute_eq, Hc in Hstep].
    destruct (execute_returns s c m v w Hc) as (Heq & Hus & Hrs).
    rewrite Heq in Hstep. injection Hstep as <- <-.
    by rewrite Hus, Hrs, Hev.
  - destruct (last (stack_undos s m)) as [c|] eqn:Hlast.
    + apply last_Some in Hlast as [l Hl]. right. exists c.
      destruct (cmd_undo c (world m)) as [[v|e] w] eqn:Hc;
        [|by rewrite undo_eq, Hl, last_snoc, Hc in Hstep].
      destruct (undo_returns s m l c v w Hne Hl Hc) as (Heq & Hus & Hrs).
      rewrite Heq in Hstep. injection Hstep as <- <-.
      by rewrite Hus, Hrs, Hev.
    + apply last_None in Hlast. rewrite (undo_empty _ _ Hlast) in Hstep.
      injection Hstep as <- <-. by left.
  - destruct (last (stack_redos s m)) as [c|] eqn:Hlast.
    + apply last_Some in Hlast as [l Hl]. right. exists c.
      destruct (cmd_execute c (world m)) as [[v|e] w] eqn:Hc;
        [|by rewrite redo_eq, Hl, last_snoc, Hc in Hstep].
      destruct (redo_returns s m l c v w Hne Hl Hc) as (Heq & Hus & Hrs).
      rewrite Heq in Hstep. injection Hstep as <- <-.
      by rewrite Hus, Hrs, Hev.
    + apply last_None in Hlast. rewrite (redo_empty _ _ Hlast) in Hstep.
      injection Hstep as <- <-. by left.
  - rewrite clear_eq in Hstep. injection Hstep as <- <-.
    unfold stack_undos, stack_redos. simpl.
    by rewrite read_new2_fst, read_new2_snd.
Qed.

(** Without eviction, [n] executions in a row leave [n] more commands
    on the undo stack. *)
Lemma run_executes_grow (v : T) n : ∀ s m,
  (∀ l, evict (options s) l = l) →
  ∃ s' m',
    run (replicate n (DoExecute (constant v v))) s m = (Returned s', m') ∧
    length (stack_undos s' m') = (length (stack_undos s m) + n)%nat.
Proof.
  induction n as [|n IH]; intros s m Hev.
  - exists s, m. split; [done|]. lia.
  - cbn [replicate run]. unfold bind. cbn [step].
    destruct (execute_returns s (constant v v) m v (world m) eq_refl)
      as (Heq & Hus & _).
    rewrite Heq.
    edestruct IH as (s' & m' & Hrun & Hlen); [|exists s', m'; split;
      [exact Hrun|]].
    + done.
    + rewrite Hlen, Hus, Hev, length_app. simpl. lia.
Qed.

Lemma session_executes_grow (initial : T) opts m0 n :
  (∀ l, evict (spread_defaults (default (mkOptions None) opts)) l = l) →
  ∃ s m,
    session initial opts (replicate n (DoExecute (constant initial initial)))
      m0 = (Returned s, m) ∧
    length (stack_undos s m) = n.
Proof.
  intros Hev. rewrite session_eq.
  edestruct (run_executes_grow initial n) as (s & m & Hrun & Hlen);
    [|exists s, m; split; [exact Hrun|]].
  - done.
  - rewrite Hlen. unfold stack_undos. simpl. by rewrite read_new2_fst.
Qed.

(** Under a bound of at least 1, the shift never takes the command
    that was just pushed. *)
Lemma evict_snoc o l c :
  bound_at_least_one o → ∃ l', evict o (l ++ [c]) = l' ++ [c].
Proof.
  intros Hnn. unfold evict, exceeds.
  destruct (get_maxStackSize o) as [k|] eqn:Hk; [|by exists l].
  specialize (Hnn k Hk).
  destruct (negb (k =? 0) && (Z.of_nat (length (l ++ [c])) >? k)) eqn:Hg;
    [|by exists l].
  apply andb_true_iff in Hg as [Hz Hgt].
  apply negb_true_iff, Z.eqb_neq in Hz.
  rewrite Z.gtb_ltb in Hgt. apply Z.ltb_lt in Hgt.
  rewrite length_app in Hgt. simpl in Hgt.
  destruct l as [|x l]; [simpl in Hgt; lia|].
  by exists l.
Qed.

Lemma evict_singleton o c : bound_at_least_one o → evict o [c] = [c].
Proof.
  intros Hnn. destruct (evict_snoc o [] c Hnn) as (l' & Heq).
  simpl in Heq. rewrite Heq.
  assert (length (evict o [c]) ≤ 1)%nat as Hlen by apply length_evict.
  rewrite Heq, length_app in Hlen. simpl in Hlen.
  destruct l'; [done|simpl in Hlen; lia].
Qed.

Lemma evict_cases o l : evict o l = l ∨ evict o l = tail l.
Proof. unfold evict. destruct (exceeds o (length l)); auto. Qed.

(** ** The claims *)

(** C8. Undoing with nothing to undo, or redoing with nothing to redo,
    is not an error: the call returns the very state it was given and
    leaves the store as it was, so the state and its arrays are
    unchanged and no callback was invoked (the record of invocations is
    part of the store). *)
Theorem empty_stack_is_noop s m :
  (stack_undos s m = [] → undo s m = (Returned s, m)) ∧
  (stack_redos s m = [] → redo s m = (Returned s, m)).
Proof. split; [apply undo_empty | apply redo_empty]. Qed.

(** The bound zero, in general.  The guard of the shift tests
    [maxStackSize] for truthiness before it compares, so it reads zero
    as it reads [undefined]: in every state of a session created with
    [maxStackSize] zero no returning call evicts anything, and [n]
    executions in a row leave [n] commands on the undo stack.  The
    documented meaning of the option, the largest number of commands
    to keep, is lost at zero: this is where the code departs from C3,
    C4 and C5. *)
Lemma zero_bound_never_evicts (initial : T) m0 :
  let opts := Some (mkOptions (Some (Some 0))) in
  (∃ s0 m1, createStack initial opts m0 = (Returned s0, m1) ∧
            get_maxStackSize (options s0) = Some 0) ∧
  (∀ acts a s m s' m',
     session initial opts acts m0 = (Returned s, m) →
     step a s m = (Returned s', m') →
     nothing_evicted a s m s' m') ∧
  (∀ n, ∃ s m,
     session initial opts
       (replicate n (DoExecute (constant initial initial))) m0
       = (Returned s, m) ∧
     length (stack_undos s m) = n).
Proof.
  cbv zeta. split; [|split].
  - eexists _, _. split; [apply createStack_eq|done].
  - intros acts a s m s' m' Hses Hstep.
    apply session_inv in Hses as [[(_ & _ & Hne) _] Hopt].
    eapply step_nothing_evicted; [|done|exact Hstep].
    intros l. apply evict_zero. by rewrite Hopt.
  - intros n. apply session_executes_grow.
    intros l. by apply evict_zero.
Qed.

(** C10. [createStack] called with an options object that carries the
    key [maxStackSize] with the value [undefined] returns a state whose
    [options.maxStackSize] is [undefined]: the key of the argument
    overrides the default of 10 in the spread.  In every state of a
    session started that way the bound is still [undefined] and a
    returning call evicts nothing, so the stacks grow without bound:
    [n] executions in a row leave [n] commands on the undo stack. *)
Theorem explicit_undefined_is_unbounded (initial : T) m0 :
  let opts := Some (mkOptions (Some None)) in
  (∃ s0 m1, createStack initial opts m0 = (Returned s0, m1) ∧
            maxStackSize (options s0) = Some None ∧
            get_maxStackSize (options s0) = None) ∧
  (∀ acts a s m s' m',
     session initial opts acts m0 = (Returned s, m) →
     step a s m = (Returned s', m') →
     get_maxStackSize (options s') = None ∧
     nothing_evicted a s m s' m') ∧
  (∀ n, ∃ s m,
     session initial opts
       (replicate n (DoExecute (constant initial initial))) m0
       = (Returned s, m) ∧
     length (stack_undos s m) = n).
Proof.
  cbv zeta. split; [|split].
  - eexists _, _. split; [apply createStack_eq|done].
  - intros acts a s m s' m' Hses Hstep.
    apply session_inv in Hses as [[(_ & _ & Hne) _] Hopt].
    split.
    + by rewrite (step_options _ _ _ _ _ Hstep), Hopt.
    + eapply step_nothing_evicted; [|done|exact Hstep].
      intros l. apply evict_unset. by rewrite Hopt.
  - intros n. apply session_executes_grow.
    intros l. by apply evict_unset.
Qed.

(** Where the bound is kept: in every reachable store, a state whose
    [maxStackSize] is a positive number has at most that many commands
    on its undo stack and at most that many on its redo stack; when
    [maxStackSize] is [undefined] every length is reached. *)
Lemma stacks_within_positive_bound :
  (∀ m pool s k,
     reach m pool → s ∈ pool →
     get_maxStackSize (options s) = Some k → 0 < k →
     Z.of_nat (length (stack_undos s m)) ≤ k ∧
     Z.of_nat (length (stack_redos s m)) ≤ k) ∧
  (∀ (initial : T) (m0 : Machine T W E) n, ∃ s m,
     session initial (Some (mkOptions (Some None)))
       (replicate n (DoExecute (constant initial initial))) m0
       = (Returned s, m) ∧
     get_maxStackSize (options s) = None ∧
     length (stack_undos s m) = n).
Proof.
  split.
  - intros m pool s k Hreach Hin Hk Hpos.
    apply reach_inv in Hreach.
    destruct (proj1 (Forall_forall _ _) Hreach s Hin) as [_ Hb].
    specialize (Hb k Hk Hpos). lia.
  - intros initial m0 n.
    destruct (session_executes_grow initial
                (Some (mkOptions (Some None))) m0 n) as (s & m & Hses & Hlen).
    { intros l. by apply evict_unset. }
    exists s, m. split; [exact Hses|]. split; [|exact Hlen].
    apply session_inv in Hses as [_ Hopt]. by rewrite Hopt.
Qed.

(** C9. In every reachable store, a state whose [maxStackSize] is a
    positive number holds no more than that many commands on its two
    stacks together.  Hence the guard of the shift is false whenever
    [undo] or [redo] evaluates it on such a state, and a returning
    [undo] or [redo] leaves the receiving stack with all it held plus
    the command moved.  The shift of [execute] does fire: under the
    bound 1, the second execution drops the first command. *)
Theorem only_execute_evicts :
  (∀ m pool s k,
     reach m pool → s ∈ pool →
     get_maxStackSize (options s) = Some k → 0 < k →
     Z.of_nat (length (stack_undos s m) + length (stack_redos s m)) ≤ k ∧
     (∀ c, last (stack_undos s m) = Some c →
        exceeds (options s) (length (stack_redos s m ++ [c])) = false ∧
        ∀ s' m', undo s m = (Returned s', m') →
                 stack_redos s' m' = stack_redos s m ++ [c]) ∧
     (∀ c, last (stack_redos s m) = Some c →
        exceeds (options s) (length (stack_undos s m ++ [c])) = false ∧
        ∀ s' m', redo s m = (Returned s', m') →
                 stack_undos s' m' = stack_undos s m ++ [c])) ∧
  (∀ (initial : T) (m0 : Machine T W E), ∃ m pool s c s' m',
     reach m pool ∧ s ∈ pool ∧
     get_maxStackSize (options s) = Some 1 ∧
     exceeds (options s) (length (stack_undos s m ++ [c])) = true ∧
     execute s c m = (Returned s', m') ∧
     stack_undos s' m' = tail (stack_undos s m ++ [c])).
Proof.
  split.
  - intros m pool s k Hreach Hin Hk Hpos.
    apply reach_inv in Hreach.
    destruct (proj1 (Forall_forall _ _) Hreach s Hin)
      as [(_ & _ & Hne) Hb].
    specialize (Hb k Hk Hpos). split; [exact Hb|]. split.
    + intros c [l Hl]%last_Some.
      assert (Z.of_nat (length (stack_redos s m ++ [c])) ≤ k) as Hfit.
      { rewrite Hl in Hb. rewrite !length_app in *. simpl in *. lia. }
      split.
      * rewrite (exceeds_positive _ k) by done. apply Z.ltb_ge. lia.
      * intros s' m' Hundo.
        destruct (cmd_undo c (world m)) as [[v|e] w] eqn:Hc;
          [|by rewrite undo_eq, Hl, last_snoc, Hc in Hundo].
        destruct (undo_returns s m l c v w Hne Hl Hc) as (Heq & _ & Hrs).
        rewrite Heq in Hundo. injection Hundo as <- <-.
        rewrite Hrs. by eapply evict_fits.
    + intros c [l Hl]%last_Some.
      assert (Z.of_nat (length (stack_undos s m ++ [c])) ≤ k) as Hfit.
      { rewrite Hl in Hb. rewrite !length_app in *. simpl in *. lia. }
      split.
      * rewrite (exceeds_positive _ k) by done. apply Z.ltb_ge. lia.
      * intros s' m' Hredo.
        destruct (cmd_execute c (world m)) as [[v|e] w] eqn:Hc;
          [|by rewrite redo_eq, Hl, last_snoc, Hc in Hredo].
        destruct (redo_returns s m l c v w Hne Hl Hc) as (Heq & Hus & _).
        rewrite Heq in Hredo. injection Hredo as <- <-.
        rewrite Hus. by eapply evict_fits.
  - intros initial m0.
    set (c := constant initial initial : Command T W E).
    set (opts := Some (mkOptions (Some (Some 1)))).
    pose proof (createStack_eq initial opts m0) as Hcreate.
    set (s0 := mkState initial (spread_defaults (default (mkOptions None) opts))
                 (length (heap m0)) (S (length (heap m0)))) in Hcreate.
    set (m1 := mkMachine (world m0) (heap m0 ++ [[]; []]) (calls m0))
      in Hcreate.
    destruct (execute_returns s0 c m1 initial (world m1) eq_refl)
      as (Hex1 & Hus1 & _).
    set (s1 := mkState initial (options s0) (length (heap m1))
                 (S (length (heap m1)))) in Hex1, Hus1.
    set (m2 := mkMachine (world m1)
                 (heap m1 ++ [evict (options s0) (stack_undos s0 m1 ++ [c]); []])
                 (calls m1 ++ [Forward c])) in Hex1, Hus1.
    destruct (execute_returns s1 c m2 initial (world m2) eq_refl)
      as (Hex2 & Hus2 & _).
    assert (stack_undos s1 m2 = [c]) as Hone.
    { rewrite Hus1. unfold stack_undos, s0, m1. simpl.
      by rewrite read_new2_fst. }
    exists m2, [s1; s0], s1, c. eexists _, _.
    split; [|split; [left|split; [done|split; [|split; [exact Hex2|]]]]].
    + eapply (reach_step _ _ (DoExecute c)); [|left|exact Hex1].
      eapply reach_create; [apply reach_start|exact Hcreate].
    + by rewrite Hone.
    + rewrite Hus2, Hone. done.
Qed.

(** C6, amended. Let [maxStackSize] be [undefined] or at least 1, let
    the forward callback of [op] return, and let its inverse callback
    return the current value of [s].  Then [undo (execute s op)] returns
    a state with the current value of [s]; the entry that [execute]
    pushed has moved: the undo stack is the one [execute] built without
    its last entry, and the redo stack holds [op] and nothing else.
    (Whether [op] is the last entry of the undo stack again depends on
    the entry below it.) *)
Theorem execute_then_undo s op m v w1 w2 :
  bound_at_least_one (options s) →
  cmd_execute op (world m) = (Returned v, w1) →
  cmd_undo op w1 = (Returned (current s), w2) →
  ∃ s1 m1 s2 m2,
    execute s op m = (Returned s1, m1) ∧
    undo s1 m1 = (Returned s2, m2) ∧
    current s2 = current s ∧
    stack_undos s1 m1 = stack_undos s2 m2 ++ [op] ∧
    stack_redos s2 m2 = [op].
Proof.
  intros Hnn Hfw Hbw.
  destruct (execute_returns s op m v w1 Hfw) as (Hex & Hus & Hrs).
  destruct (evict_snoc (options s) (stack_undos s m) op Hnn) as (l & Hl).
  rewrite Hl in Hex, Hus, Hrs.
  match type of Hex with _ = (Returned ?s1, ?m1) =>
    destruct (undo_returns s1 m1 l op (current s) w2) as (Hun & Hus2 & Hrs2);
      [simpl; lia|exact Hus|exact Hbw|]
  end.
  eexists _, _, _, _.
  split; [exact Hex|]. split; [exact Hun|]. split; [done|].
  split; [by rewrite Hus, Hus2|].
  rewrite Hrs2, Hrs. simpl. by apply evict_singleton.
Qed.

(** C7, amended. Let the two stacks of [s] be two arrays,
    [maxStackSize] be [undefined] or at least 1, and the last command
    [c] of the undo stack have a forward callback that is pure and
    deterministic and returns the current value of [s], and an inverse
    callback that returns.  Then [redo (undo s)] returns a state with
    the current value of [s], obtained by invoking the inverse and then
    the forward callback of [c], and [c] is the last entry of the undo
    stack again.  Any returning [redo] takes just the last command off
    the redo stack and appends it to the undo stack, which loses at
    most its first entry to the shift; it clears neither. *)
Theorem undo_then_redo :
  (∀ s m l c u w1,
     undos s ≠ redos s →
     bound_at_least_one (options s) →
     stack_undos s m = l ++ [c] →
     (∀ w, cmd_execute c w = (Returned (current s), w)) →
     cmd_undo c (world m) = (Returned u, w1) →
     ∃ s1 m1 s2 m2,
       undo s m = (Returned s1, m1) ∧
       redo s1 m1 = (Returned s2, m2) ∧
       current s2 = current s ∧
       calls m2 = calls m ++ [Inverse c; Forward c] ∧
       last (stack_undos s2 m2) = Some c ∧
       stack_redos s1 m1 = stack_redos s2 m2 ++ [c]) ∧
  (∀ s m l c v w,
     undos s ≠ redos s →
     stack_redos s m = l ++ [c] →
     cmd_execute c (world m) = (Returned v, w) →
     ∃ s' m',
       redo s m = (Returned s', m') ∧
       stack_redos s' m' = l ∧
       (stack_undos s' m' = stack_undos s m ++ [c] ∨
        stack_undos s' m' = tail (stack_undos s m ++ [c]))).
Proof.
  split.
  - intros s m l c u w1 Hne Hnn Hl Hfw Hbw.
    assert (undos s < length (heap m))%nat as Hu.
    { apply read_nonempty_valid. unfold stack_undos in Hl. rewrite Hl.
      by destruct l. }
    destruct (undo_returns s m l c u w1 Hne Hl Hbw) as (Hun & Hus & Hrs).
    destruct (evict_snoc (options s) (stack_redos s m) c Hnn) as (r' & Hr').
    rewrite Hr' in Hun, Hus, Hrs.
    match type of Hun with _ = (Returned ?s1, ?m1) =>
      destruct (redo_returns s1 m1 r' c (current s) w1)
        as (Hre & Hus2 & Hrs2); [simpl; lia|exact Hrs|apply Hfw|]
    end.
    eexists _, _, _, _.
    split; [exact Hun|]. split; [exact Hre|]. split; [done|].
    split; [simpl; by rewrite <- app_assoc|].
    split.
    + rewrite Hus2, Hus. simpl.
      destruct (evict_snoc (options s) l c Hnn) as (l' & ->).
      apply last_snoc.
    + by rewrite Hrs, Hrs2.
  - intros s m l c v w Hne Hl Hc.
    destruct (redo_returns s m l c v w Hne Hl Hc) as (Hre & Hus & Hrs).
    eexists _, _. split; [exact Hre|]. split; [exact Hrs|].
    rewrite Hus. apply evict_cases.
Qed.

(** ** Beyond the claims *)

Lemma can_undo_eq s m :
  can_undo s m = (Returned (0 <? length (stack_undos s m))%nat, m).
Proof. reflexivity. Qed.

Lemma can_redo_eq s m :
  can_redo s m = (Returned (0 <? length (stack_redos s m))%nat, m).
Proof. reflexivity. Qed.

Lemma calls_grew m (x : Call T W E) w h : mkMachine w h (calls m ++ [x]) ≠ m.
Proof.
  intros Heq. apply (f_equal calls) in Heq. simpl in Heq.
  apply (f_equal length) in Heq. rewrite length_app in Heq. simpl in Heq. lia.
Qed.

(** [createStack] returns a state with the initial value and two empty
    stacks of its own.  The bound is the number given under the key
    [maxStackSize], whatever it is, and 10 when no options or no such key
    are given.  Nothing that existed is touched and no callback runs;
    on the new state [can.undo] and [can.redo] are false and [undo] and
    [redo] change nothing. *)
Theorem createStack_result (initial : T) opts m :
  ∃ s m',
    createStack initial opts m = (Returned s, m') ∧
    current s = initial ∧
    stack_undos s m' = [] ∧ stack_redos s m' = [] ∧
    valid s m' ∧
    (∀ n, opts = Some (mkOptions (Some (Some n))) →
          get_maxStackSize (options s) = Some n) ∧
    (opts = None ∨ opts = Some (mkOptions None) →
       get_maxStackSize (options s) = Some 10) ∧
    (∀ r, (r < length (heap m))%nat → read r (heap m') = read r (heap m)) ∧
    world m' = world m ∧ calls m' = calls m ∧
    can_undo s m' = (Returned false, m') ∧
    can_redo s m' = (Returned false, m') ∧
    undo s m' = (Returned s, m') ∧
    redo s m' = (Returned s, m').
Proof.
  eexists _, _. split; [apply createStack_eq|].
  assert (∀ x y : list (Command T W E),
            read (length (heap m)) (heap m ++ [x; y]) = x) as Hfst
    by (intros; apply read_new2_fst).
  assert (∀ x y : list (Command T W E),
            read (S (length (heap m))) (heap m ++ [x; y]) = y) as Hsnd
    by (intros; apply read_new2_snd).
  split; [done|]. split; [apply Hfst|]. split; [apply Hsnd|].
  split; [unfold valid; simpl; rewrite length_app; simpl; lia|].
  split; [by intros n ->|]. split; [by intros [->| ->]|].
  split; [intros r Hr; simpl; by apply read_old2|].
  split; [done|]. split; [done|].
  split; [rewrite can_undo_eq; unfold stack_undos; simpl; by rewrite Hfst|].
  split; [rewrite can_redo_eq; unfold stack_redos; simpl; by rewrite Hsnd|].
  split; [apply undo_empty, Hfst | apply redo_empty, Hsnd].
Qed.

(** [can.undo] and [can.redo] only look: they leave the store as it is.
    [can.undo] is false exactly when [undo] hands back the state it was
    given and leaves the store untouched, and likewise [can.redo] for
    [redo]. *)
Theorem can_tells_whether_it_acts s m :
  (∃ b, can_undo s m = (Returned b, m) ∧
        (b = false ↔ undo s m = (Returned s, m))) ∧
  (∃ b, can_redo s m = (Returned b, m) ∧
        (b = false ↔ redo s m = (Returned s, m))).
Proof.
  split.
  - eexists. split; [apply can_undo_eq|].
    destruct (last (stack_undos s m)) as [c|] eqn:Hlast.
    + pose proof Hlast as [l Hl]%last_Some. rewrite Hl, length_app. simpl.
      split.
      * intros Hf. apply Nat.ltb_ge in Hf. lia.
      * rewrite undo_eq, Hl, last_snoc. simpl.
        destruct (cmd_undo c (world m)) as [[v|e] w]; [|done].
        intros [= _ Hm]. by apply calls_grew in Hm.
    + apply last_None in Hlast. rewrite Hlast. simpl.
      split; [intros _; by apply undo_empty | done].
  - eexists. split; [apply can_redo_eq|].
    destruct (last (stack_redos s m)) as [c|] eqn:Hlast.
    + pose proof Hlast as [l Hl]%last_Some. rewrite Hl, length_app. simpl.
      split.
      * intros Hf. apply Nat.ltb_ge in Hf. lia.
      * rewrite redo_eq, Hl, last_snoc. simpl.
        destruct (cmd_execute c (world m)) as [[v|e] w]; [|done].
        intros [= _ Hm]. by apply calls_grew in Hm.
    + apply last_None in Hlast. rewrite Hlast. simpl.
      split; [intros _; by apply redo_empty | done].
Qed.

(** [clear] returns a state with the current value and the options of
    its argument and two empty stacks of its own.  It runs no callback
    and touches nothing that existed: the stacks of its argument are
    what they were.  On the state it returns, [undo] and [redo] change
    nothing. *)
Theorem clear_result s m :
  ∃ s' m',
    clear s m = (Returned s', m') ∧
    current s' = current s ∧ options s' = options s ∧
    stack_undos s' m' = [] ∧ stack_redos s' m' = [] ∧
    valid s' m' ∧
    (∀ r, (r < length (heap m))%nat → read r (heap m') = read r (heap m)) ∧
    (valid s m →
       stack_undos s m' = stack_undos s m ∧
       stack_redos s m' = stack_redos s m) ∧
    world m' = world m ∧ calls m' = calls m ∧
    undo s' m' = (Returned s', m') ∧
    redo s' m' = (Returned s', m').
Proof.
  eexists _, _. split; [apply clear_eq|].
  assert (∀ x y : list (Command T W E),
            read (length (heap m)) (heap m ++ [x; y]) = x) as Hfst
    by (intros; apply read_new2_fst).
  assert (∀ x y : list (Command T W E),
            read (S (length (heap m))) (heap m ++ [x; y]) = y) as Hsnd
    by (intros; apply read_new2_snd).
  split; [done|]. split; [done|]. split; [apply Hfst|]. split; [apply Hsnd|].
  split; [unfold valid; simpl; rewrite length_app; simpl; lia|].
  split; [intros r Hr; simpl; by apply read_old2|].
  split.
  { intros (Hu & Hr & _). unfold stack_undos, stack_redos. simpl.
    by rewrite !read_old2. }
  split; [done|]. split; [done|].
  split; [apply undo_empty, Hfst | apply redo_empty, Hsnd].
Qed.

(** [execute] invokes the forward callback of its command, once, and
    nothing else.  Whether that callback returns or throws, every array
    that existed keeps its content; when it throws, the exception goes
    through and the heap is the one [execute] found. *)
Theorem execute_only_allocates s op m :
  calls (execute s op m).2 = calls m ++ [Forward op] ∧
  (∀ r, (r < length (heap m))%nat →
        read r (heap (execute s op m).2) = read r (heap m)) ∧
  (∀ e w, cmd_execute op (world m) = (Thrown e, w) →
          (execute s op m).1 = Thrown e ∧
          heap (execute s op m).2 = heap m ∧
          world (execute s op m).2 = w).
Proof.
  split; [|split].
  - rewrite execute_eq. by destruct (cmd_execute op (world m)) as [[v|e] w].
  - intros r Hr. by apply execute_frame.
  - intros e w Hc. by rewrite (execute_throws s op m e w Hc).
Qed.

(** Of the arrays that exist, [undo] changes one, the undo stack of the
    state it is handed, which loses its last command, and [redo] changes
    one, the redo stack of its argument, whether the callback returns or
    throws. *)
Theorem undo_redo_footprint s m :
  (stack_undos s (undo s m).2 = removelast (stack_undos s m) ∧
   ∀ r, (r < length (heap m))%nat → r ≠ undos s →
        read r (heap (undo s m).2) = read r (heap m)) ∧
  (stack_redos s (redo s m).2 = removelast (stack_redos s m) ∧
   ∀ r, (r < length (heap m))%nat → r ≠ redos s →
        read r (heap (redo s m).2) = read r (heap m)).
Proof.
  split.
  - destruct (last (stack_undos s m)) as [c|] eqn:Hlast.
    + pose proof Hlast as [l Hl]%last_Some. split.
      * rewrite (undo_pops_input s m l c Hl), Hl. by rewrite removelast_last.
      * intros r Hr Hne. rewrite undo_eq, Hlast. simpl.
        destruct (cmd_undo c (world m)) as [[v|e] w]; simpl.
        -- rewrite read_old by (rewrite length_insert; lia).
           by rewrite read_insert_ne.
        -- by rewrite read_insert_ne.
    + apply last_None in Hlast. rewrite (undo_empty _ _ Hlast). simpl.
      split; [by rewrite Hlast|done].
  - destruct (last (stack_redos s m)) as [c|] eqn:Hlast.
    + pose proof Hlast as [l Hl]%last_Some. split.
      * rewrite (redo_pops_input s m l c Hl), Hl. by rewrite removelast_last.
      * intros r Hr Hne. rewrite redo_eq, Hlast. simpl.
        destruct (cmd_execute c (world m)) as [[v|e] w]; simpl.
        -- rewrite read_old by (rewrite length_insert; lia).
           by rewrite read_insert_ne.
        -- by rewrite read_insert_ne.
    + apply last_None in Hlast. rewrite (redo_empty _ _ Hlast). simpl.
      split; [by rewrite Hlast|done].
Qed.

(** After a returning [execute] there is nothing to redo: [can.redo] is
    false and [redo] hands the state back unchanged, whatever the redo
    stack held before. *)
Theorem execute_forgets_redos s op m v w :
  cmd_execute op (world m) = (Returned v, w) →
  ∃ s' m',
    execute s op m = (Returned s', m') ∧
    can_redo s' m' = (Returned false, m') ∧
    redo s' m' = (Returned s', m').
Proof.
  intros Hc. destruct (execute_returns s op m v w Hc) as (Heq & _ & Hrs).
  eexists _, _. split; [exact Heq|]. split.
  - by rewrite can_redo_eq, Hrs.
  - by apply redo_empty.
Qed.

(** The options of a state are those [createStack] resolved: no sequence
    of calls changes them, and the key [maxStackSize] is always there. *)
Theorem options_fixed_at_creation (initial : T) opts acts m0 s m :
  session initial opts acts m0 = (Returned s, m) →
  get_maxStackSize (options s)
    = match opts with
      | Some (mkOptions (Some v)) => v
      | _ => Some 10
      end ∧
  maxStackSize (options s) ≠ None.
Proof.
  intros [_ ->]%session_inv.
  destruct opts as [[[v|]]|]; simpl; split; try done; by destruct v.
Qed.

(** In every reachable store, the two stacks of a state are two arrays
    that exist. *)
Theorem reachable_states_are_valid m pool s :
  reach m pool → s ∈ pool → valid s m.
Proof.
  intros Hreach Hin. apply reach_inv in Hreach.
  by destruct (proj1 (Forall_forall _ _) Hreach s Hin).
Qed.

(** ** Runs of calls *)

Lemma roomy_evict o l n : roomy o n → (length l ≤ n)%nat → evict o l = l.
Proof.
  unfold roomy, evict, exceeds.
  destruct (get_maxStackSize o) as [k|]; [|done].
  intros [->|Hk] Hl; [done|].
  replace (Z.of_nat (length l) >? k) with false; [by rewrite andb_false_r|].
  symmetry. rewrite Z.gtb_ltb. apply Z.ltb_ge. lia.
Qed.

Lemma roomy_le o n n' : roomy o n → (n' ≤ n)%nat → roomy o n'.
Proof.
  unfold roomy. destruct (get_maxStackSize o) as [k|]; [|done].
  intros [->|Hk] Hn; [by left|right; lia].
Qed.

(** A reachable state under a bound of at least 1 has room for all the
    commands it holds. *)
Lemma reach_roomy m pool s :
  reach m pool → s ∈ pool → bound_at_least_one (options s) →
  roomy (options s) (length (stack_undos s m) + length (stack_redos s m)).
Proof.
  intros Hreach Hin Hnn. apply reach_inv in Hreach.
  destruct (proj1 (Forall_forall _ _) Hreach s Hin) as [_ Hb].
  unfold roomy. destruct (get_maxStackSize (options s)) as [k|] eqn:Hk;
    [|done].
  specialize (Hnn k Hk). destruct (decide (k = 0)) as [->|Hz]; [by left|].
  right. apply Hb; [done|lia].
Qed.

Lemma run_undos P : ∀ s m U R,
  undos s ≠ redos s →
  stack_undos s m = U ++ P →
  stack_redos s m = R →
  roomy (options s) (length R + length P) →
  (∀ c, c ∈ P → always_returns (cmd_undo c)) →
  ∃ s' m',
    run (replicate (length P) DoUndo) s m = (Returned s', m') ∧
    stack_undos s' m' = U ∧
    stack_redos s' m' = R ++ reverse P ∧
    options s' = options s ∧
    undos s' ≠ redos s'.
Proof.
  induction P as [|c P IH] using rev_ind; intros s m U R Hne Hl Hr Hroom Hret.
  - exists s, m. by rewrite app_nil_r in *.
  - rewrite app_assoc in Hl.
    assert (undos s < length (heap m))%nat as Hu.
    { apply read_nonempty_valid. unfold stack_undos in Hl. rewrite Hl.
      by destruct (U ++ P). }
    destruct (Hret c) with (w := world m) as (v & w & Hc);
      [apply elem_of_app; right; by left|].
    destruct (undo_returns s m (U ++ P) c v w Hne Hl Hc) as (Heq & Hus & Hrs).
    rewrite Hr, length_app in *. simpl in Hroom.
    assert (evict (options s) (R ++ [c]) = R ++ [c]) as Hev.
    { apply (roomy_evict _ _ (length R + 1));
        [eapply roomy_le; [exact Hroom|lia]|rewrite length_app; simpl; lia]. }
    rewrite Hev in Heq, Hus, Hrs.
    match type of Heq with _ = (Returned ?s1, ?m1) =>
      destruct (IH s1 m1 U (R ++ [c]))
        as (s' & m' & Hrun & Hus' & Hrs' & Hopt & Hne')
    end; [simpl; lia|exact Hus|exact Hrs| | |].
    { simpl. eapply roomy_le; [exact Hroom|]. rewrite length_app. simpl. lia. }
    { intros c' Hc'. apply Hret, elem_of_app. by left. }
    exists s', m'. split; [|split; [done|split; [|done]]].
    + replace (length P + length [c])%nat with (S (length P))
        by (simpl; lia).
      cbn [replicate run]. unfold bind. cbn [step]. by rewrite Heq.
    + by rewrite Hrs', reverse_app, reverse_singleton, <- app_assoc.
Qed.

Lemma run_redos Q : ∀ s m U R,
  undos s ≠ redos s →
  stack_redos s m = R ++ Q →
  stack_undos s m = U →
  roomy (options s) (length U + length Q) →
  (∀ c, c ∈ Q → always_returns (cmd_execute c)) →
  ∃ s' m',
    run (replicate (length Q) DoRedo) s m = (Returned s', m') ∧
    stack_redos s' m' = R ∧
    stack_undos s' m' = U ++ reverse Q ∧
    options s' = options s ∧
    undos s' ≠ redos s'.
Proof.
  induction Q as [|c Q IH] using rev_ind; intros s m U R Hne Hl Hu Hroom Hret.
  - exists s, m. by rewrite app_nil_r in *.
  - rewrite app_assoc in Hl.
    assert (redos s < length (heap m))%nat as Hlt.
    { apply read_nonempty_valid. unfold stack_redos in Hl. rewrite Hl.
      by destruct (R ++ Q). }
    destruct (Hret c) with (w := world m) as (v & w & Hc);
      [apply elem_of_app; right; by left|].
    destruct (redo_returns s m (R ++ Q) c v w Hne Hl Hc) as (Heq & Hus & Hrs).
    rewrite Hu, length_app in *. simpl in Hroom.
    assert (evict (options s) (U ++ [c]) = U ++ [c]) as Hev.
    { apply (roomy_evict _ _ (length U + 1));
        [eapply roomy_le; [exact Hroom|lia]|rewrite length_app; simpl; lia]. }
    rewrite Hev in Heq, Hus, Hrs.
    match type of Heq with _ = (Returned ?s1, ?m1) =>
      destruct (IH s1 m1 (U ++ [c]) R)
        as (s' & m' & Hrun & Hrs' & Hus' & Hopt & Hne')
    end; [simpl; lia|exact Hrs|exact Hus| | |].
    { simpl. eapply roomy_le; [exact Hroom|]. rewrite length_app. simpl. lia. }
    { intros c' Hc'. apply Hret, elem_of_app. by left. }
    exists s', m'. split; [|split; [done|split; [|done]]].
    + replace (length Q + length [c])%nat with (S (length Q))
        by (simpl; lia).
      cbn [replicate run]. unfold bind. cbn [step]. by rewrite Heq.
    + by rewrite Hus', reverse_app, reverse_singleton, <- app_assoc.
Qed.

(** Where nothing is evicted, undoing the last [n] commands and redoing
    [n] times brings both stacks back.  Let the undo stack end with the
    commands [P], let there be room for all commands of both stacks, and
    let the callbacks of [P] return.  Undoing once per command of [P]
    takes [P] off the undo stack and leaves it on the redo stack, last
    command first; redoing as many times leaves both stacks with the
    content they had. *)
Theorem undo_all_redo_all s m U P R :
  undos s ≠ redos s →
  stack_undos s m = U ++ P →
  stack_redos s m = R →
  roomy (options s) (length U + length P + length R) →
  (∀ c, c ∈ P →
     always_returns (cmd_undo c) ∧ always_returns (cmd_execute c)) →
  ∃ s1 m1 s2 m2,
    run (replicate (length P) DoUndo) s m = (Returned s1, m1) ∧
    stack_undos s1 m1 = U ∧
    stack_redos s1 m1 = R ++ reverse P ∧
    run (replicate (length P) DoRedo) s1 m1 = (Returned s2, m2) ∧
    stack_undos s2 m2 = U ++ P ∧
    stack_redos s2 m2 = R.
Proof.
  intros Hne Hl Hr Hroom Hret.
  destruct (run_undos P s m U R Hne Hl Hr)
    as (s1 & m1 & Hrun1 & Hus1 & Hrs1 & Hopt1 & Hne1).
  { eapply roomy_le; [exact Hroom|lia]. }
  { intros c Hc. exact (proj1 (Hret c Hc)). }
  destruct (run_redos (reverse P) s1 m1 U R Hne1 Hrs1 Hus1)
    as (s2 & m2 & Hrun2 & Hrs2 & Hus2 & _ & _).
  { rewrite Hopt1, length_reverse. eapply roomy_le; [exact Hroom|lia]. }
  { intros c Hc. apply (proj1 (elem_of_reverse c P)) in Hc.
    exact (proj2 (Hret c Hc)). }
  rewrite length_reverse in Hrun2. rewrite reverse_involutive in Hus2.
  by exists s1, m1, s2, m2.
Qed.

Lemma evict_full o l c (k : nat) x :
  get_maxStackSize o = Some (Z.of_nat k) → (0 < k)%nat →
  length (x :: l) = k →
  evict o ((x :: l) ++ [c]) = l ++ [c].
Proof.
  intros Hk Hpos Hlen. unfold evict.
  rewrite (exceeds_positive _ (Z.of_nat k)) by (done || lia).
  replace (Z.of_nat k <? Z.of_nat (length ((x :: l) ++ [c]))) with true;
    [done|].
  symmetry. apply Z.ltb_lt. rewrite length_app. simpl in *. lia.
Qed.

(** Eviction is first in, first out.  Under a positive bound [k], on a
    state whose undo stack holds at most [k] commands, executing the
    commands [cs] one after another (their forward callbacks returning)
    leaves on the undo stack the last [k] of the commands it held
    followed by [cs], in that order, and, once anything was executed, an
    empty redo stack. *)
Theorem executes_keep_the_latest cs : ∀ s m (k : nat),
  get_maxStackSize (options s) = Some (Z.of_nat k) → (0 < k)%nat →
  (length (stack_undos s m) ≤ k)%nat →
  (∀ c, c ∈ cs → always_returns (cmd_execute c)) →
  ∃ s' m',
    run (DoExecute <$> cs) s m = (Returned s', m') ∧
    stack_undos s' m'
      = drop (length (stack_undos s m ++ cs) - k) (stack_undos s m ++ cs) ∧
    stack_redos s' m' = match cs with [] => stack_redos s m | _ => [] end.
Proof.
  induction cs as [|c cs IH]; intros s m k Hk Hpos Hlen Hret.
  - exists s, m. split; [done|]. split; [|done].
    rewrite app_nil_r.
    by replace (length (stack_undos s m) - k)%nat with 0%nat by lia.
  - destruct (Hret c) with (w := world m) as (v & w & Hc); [by left|].
    destruct (execute_returns s c m v w Hc) as (Heq & Hus & Hrs).
    match type of Heq with _ = (Returned ?s1, ?m1) =>
      destruct (IH s1 m1 k Hk Hpos) as (s' & m' & Hrun & Hus' & Hrs')
    end.
    { rewrite Hus.
      pose proof (evict_within (options s) (stack_undos s m ++ [c])
                    (Z.of_nat k) Hk) as Hev.
      rewrite length_app in Hev. simpl in Hev. lia. }
    { intros c' Hc'. apply Hret. by right. }
    exists s', m'. split; [|split].
    + rewrite fmap_cons. cbn [run]. unfold bind. cbn [step].
      rewrite Heq. exact Hrun.
    + rewrite Hus', Hus.
      destruct (decide (length (stack_undos s m) = k)) as [Hfull|Hless].
      * destruct (stack_undos s m) as [|x l] eqn:HU; [simpl in *; lia|].
        rewrite (evict_full _ _ _ k) by done.
        rewrite <- !app_assoc. simpl in *.
        rewrite !length_app. simpl.
        replace (length l + S (length cs) - k)%nat with (length cs) by lia.
        by replace (S (length l + S (length cs)) - k)%nat
          with (S (length cs)) by lia.
      * rewrite (evict_fits _ _ (Z.of_nat k))
          by (done || lia || (rewrite length_app; simpl; lia)).
        by rewrite <- !app_assoc.
    + rewrite Hrs'. destruct cs; [exact Hrs|done].
Qed.

(** ** Invariants of reachable stores, in general *)

Lemma reach_invariant (P : Machine T W E → State T → Prop) :
  (∀ initial opts m s m',
     createStack initial opts m = (Returned s, m') → P m' s) →
  (∀ s m m', inv m s → P m s → heap_le (heap m) (heap m') → P m' s) →
  (∀ a s m s' m',
     inv m s → P m s → step a s m = (Returned s', m') → P m' s') →
  ∀ m pool, reach m pool → Forall (λ s, inv m s ∧ P m s) pool.
Proof.
  intros Hcreate Hmono Hstep.
  induction 1 as [m | m pool initial opts s m' _ IH Hc
                 | m pool a s s' m' _ IH Hin Hs
                 | m pool a s e m' _ IH Hin Hs
                 | m pool w _ IH].
  - constructor.
  - assert (heap_le (heap m) (heap m')) as Hle.
    { revert Hc. rewrite createStack_eq. intros [= _ <-]. apply heap_le_app. }
    constructor.
    + split; [by eapply createStack_inv | by eapply Hcreate].
    + eapply Forall_impl; [exact IH|]. intros s0 [Hi Hp]. split.
      * by eapply inv_heap_le.
      * by eapply Hmono.
  - pose proof (step_heap_le a s m) as Hle. rewrite Hs in Hle.
    destruct (proj1 (Forall_forall _ _) IH s Hin) as [Hi Hp].
    constructor.
    + split; [by eapply step_inv | by eapply Hstep].
    + eapply Forall_impl; [exact IH|]. intros s0 [Hi0 Hp0]. split.
      * by eapply inv_heap_le.
      * by eapply Hmono.
  - pose proof (step_heap_le a s m) as Hle. rewrite Hs in Hle.
    eapply Forall_impl; [exact IH|]. intros s0 [Hi0 Hp0]. split.
    + by eapply inv_heap_le.
    + by eapply Hmono.
  - eapply Forall_impl; [exact IH|]. intros s0 [Hi0 Hp0]. split.
    + eapply inv_heap_le; [exact Hi0|apply heap_le_refl].
    + eapply Hmono; [exact Hi0|exact Hp0|apply heap_le_refl].
Qed.

Lemma evict_negative o l k :
  get_maxStackSize o = Some k → k < 0 → evict o l = tail l.
Proof.
  intros Hk Hneg. unfold evict, exceeds. rewrite Hk.
  replace (k =? 0) with false by (symmetry; apply Z.eqb_neq; lia).
  replace (Z.of_nat (length l) >? k) with true; [done|].
  symmetry. rewrite Z.gtb_ltb. apply Z.ltb_lt. lia.
Qed.

(** A negative [maxStackSize] is truthy and below every length, so the
    shift always runs: in every reachable store a state under a negative
    bound has two empty stacks, and a command it executes is gone from
    the undo stack at once. *)
Theorem negative_bound_keeps_nothing m pool s k :
  reach m pool → s ∈ pool →
  get_maxStackSize (options s) = Some k → k < 0 →
  stack_undos s m = [] ∧ stack_redos s m = [] ∧
  ∀ op v w, cmd_execute op (world m) = (Returned v, w) →
    ∃ s' m', execute s op m = (Returned s', m') ∧
             current s' = v ∧
             stack_undos s' m' = [] ∧ stack_redos s' m' = [].
Proof.
  intros Hreach Hin Hk Hneg.
  assert (stack_undos s m = [] ∧ stack_redos s m = []) as [Hu Hr].
  { pose proof (reach_invariant
      (λ m s, ∀ k, get_maxStackSize (options s) = Some k → k < 0 →
                   stack_undos s m = [] ∧ stack_redos s m = [])) as Hinv.
    eapply (proj1 (Forall_forall _ _) (Hinv _ _ _ m pool Hreach) s Hin);
      [done|done].
    Unshelve.
    - intros initial opts m1 s1 m1'. rewrite createStack_eq.
      intros [= <- <-] k1 _ _. unfold stack_undos, stack_redos. simpl.
      by rewrite read_new2_fst, read_new2_snd.
    - intros s1 m1 m1' [(Hv1 & Hv2 & _) _] Hp [_ Hle] k1 Hk1 Hn1.
      destruct (Hp k1 Hk1 Hn1) as [Hu1 Hr1].
      pose proof (Hle _ Hv1) as Hl1. pose proof (Hle _ Hv2) as Hl2.
      unfold stack_undos, stack_redos in *. rewrite Hu1 in Hl1.
      rewrite Hr1 in Hl2. simpl in *.
      split; apply length_zero_iff_nil; lia.
    - intros a s1 m1 s1' m1' _ Hp Hs k1 Hk1 Hn1.
      rewrite (step_options _ _ _ _ _ Hs) in Hk1.
      destruct (Hp k1 Hk1 Hn1) as [Hu1 Hr1].
      destruct a as [c| | |]; cbn [step] in Hs.
      + destruct (cmd_execute c (world m1)) as [[v|e] w] eqn:Hc;
          [|by rewrite execute_eq, Hc in Hs].
        destruct (execute_returns s1 c m1 v w Hc) as (Heq & Hus & Hrs).
        rewrite Heq in Hs. injection Hs as <- <-.
        rewrite Hus, Hrs, Hu1. by rewrite (evict_negative _ _ k1).
      + rewrite (undo_empty _ _ Hu1) in Hs. by injection Hs as <- <-.
      + rewrite (redo_empty _ _ Hr1) in Hs. by injection Hs as <- <-.
      + rewrite clear_eq in Hs. injection Hs as <- <-.
        unfold stack_undos, stack_redos. simpl.
        by rewrite read_new2_fst, read_new2_snd. }
  split; [done|]. split; [done|].
  intros op v w Hc.
  destruct (execute_returns s op m v w Hc) as (Heq & Hus & Hrs).
  eexists _, _. split; [exact Heq|]. split; [done|]. split; [|exact Hrs].
  rewrite Hus, Hu. by rewrite (evict_negative _ _ k).
Qed.

(** Which callbacks a call invokes: [execute] the forward callback of
    its command, [undo] the inverse callback of the last command of the
    undo stack, [redo] the forward callback of the last command of the
    redo stack, each once, and none when that stack is empty; [clear]
    none.  This holds whether the callback returns or throws. *)
Theorem step_calls a s m :
  calls (step a s m).2
    = calls m ++
      match a with
      | DoExecute op => [Forward op]
      | DoUndo =>
          match last (stack_undos s m) with
          | Some c => [Inverse c]
          | None => []
          end
      | DoRedo =>
          match last (stack_redos s m) with
          | Some c => [Forward c]
          | None => []
          end
      | DoClear => []
      end.
Proof.
  destruct a as [op| | |]; cbn [step].
  - rewrite execute_eq. by destruct (cmd_execute op (world m)) as [[v|e] w].
  - rewrite undo_eq. destruct (last (stack_undos s m)) as [c|]; simpl.
    + by destruct (cmd_undo c (world m)) as [[v|e] w].
    + by rewrite app_nil_r.
  - rewrite redo_eq. destruct (last (stack_redos s m)) as [c|]; simpl.
    + by destruct (cmd_execute c (world m)) as [[v|e] w].
    + by rewrite app_nil_r.
  - rewrite clear_eq. simpl. by rewrite app_nil_r.
Qed.

(** Under a bound that is [undefined] or at least 1, a returning
    [execute] leaves a state on which [can.undo] is true, a returning
    [undo] of a command leaves one on which [can.redo] is true, and a
    returning [redo] of a command one on which [can.undo] is true. *)
Theorem transitions_enable_each_other s m :
  bound_at_least_one (options s) →
  (∀ op s' m', execute s op m = (Returned s', m') →
               can_undo s' m' = (Returned true, m')) ∧
  (∀ s' m', undos s ≠ redos s → stack_undos s m ≠ [] →
            undo s m = (Returned s', m') →
            can_redo s' m' = (Returned true, m')) ∧
  (∀ s' m', undos s ≠ redos s → stack_redos s m ≠ [] →
            redo s m = (Returned s', m') →
            can_undo s' m' = (Returned true, m')).
Proof.
  intros Hnn.
  assert (∀ l c, (0 <? length (evict (options s) (l ++ [c])))%nat = true)
    as Hpos.
  { intros l c. destruct (evict_snoc (options s) l c Hnn) as (l' & ->).
    rewrite length_app. simpl. apply Nat.ltb_lt. lia. }
  split; [|split].
  - intros op s' m' Hex.
    destruct (cmd_execute op (world m)) as [[v|e] w] eqn:Hc;
      [|by rewrite execute_eq, Hc in Hex].
    destruct (execute_returns s op m v w Hc) as (Heq & Hus & _).
    rewrite Heq in Hex. injection Hex as <- <-.
    by rewrite can_undo_eq, Hus, Hpos.
  - intros s' m' Hne Hnonempty Hun.
    destruct (last (stack_undos s m)) as [c|] eqn:Hlast;
      [|by apply last_None in Hlast].
    apply last_Some in Hlast as [l Hl].
    destruct (cmd_undo c (world m)) as [[v|e] w] eqn:Hc;
      [|by rewrite undo_eq, Hl, last_snoc, Hc in Hun].
    destruct (undo_returns s m l c v w Hne Hl Hc) as (Heq & _ & Hrs).
    rewrite Heq in Hun. injection Hun as <- <-.
    by rewrite can_redo_eq, Hrs, Hpos.
  - intros s' m' Hne Hnonempty Hre.
    destruct (last (stack_redos s m)) as [c|] eqn:Hlast;
      [|by apply last_None in Hlast].
    apply last_Some in Hlast as [l Hl].
    destruct (cmd_execute c (world m)) as [[v|e] w] eqn:Hc;
      [|by rewrite redo_eq, Hl, last_snoc, Hc in Hre].
    destruct (redo_returns s m l c v w Hne Hl Hc) as (Heq & Hus & _).
    rewrite Heq in Hre. injection Hre as <- <-.
    by rewrite can_undo_eq, Hus, Hpos.
Qed.

End Facts.

Module CounterTests.
Import Counter.

Example fresh_is_created :
  createStack 10 None boot = (Returned fresh, fresh_store).
Proof. reflexivity. Qed.

Example executed_is_reached :
  session 10 None [DoExecute command] boot
  = (Returned executed, executed_store).
Proof. reflexivity. Qed.

Example undone_is_reached :
  session 10 None [DoExecute command; DoUndo] boot
  = (Returned undone, undone_store).
Proof. reflexivity. Qed.

Example parked_is_reached :
  session 10 None [DoExecute flaky; DoUndo] boot
  = (Returned parked, parked_store).
Proof. reflexivity. Qed.

Example armed_is_reached :
  session 10 None [DoExecute fragile] boot = (Returned armed, armed_store).
Proof. reflexivity. Qed.

Example zeroed_is_created :
  createStack 0 (with_max 0) boot = (Returned zeroed, fresh_store).
Proof. reflexivity. Qed.

Example kept_is_reached :
  session 20 None [DoExecute keep] boot = (Returned kept, kept_store).
Proof. reflexivity. Qed.

Example astray_is_reached :
  session 0 None [DoExecute (set_to 1); DoExecute lossy; DoUndo] boot
  = (Returned astray, astray_store).
Proof. reflexivity. Qed.

Example bounded_is_created :
  createStack 0 (with_max 3) boot = (Returned bounded, fresh_store).
Proof. reflexivity. Qed.

Example filled_is_reached :
  session 0 (with_max 3) four boot = (Returned filled, filled_store).
Proof. reflexivity. Qed.

Example negated_is_created :
  createStack 0 (with_max (-1)) boot = (Returned negated, fresh_store).
Proof. reflexivity. Qed.

Example test_createStack :
  observe (session 10 None [] boot) = Some (10, [], []).
Proof. reflexivity. Qed.

Example test_execute :
  observe (session 10 None [DoExecute command] boot)
  = Some (20, [command], []).
Proof. reflexivity. Qed.

Example test_undo :
  observe (session 10 None [DoExecute command; DoUndo] boot)
  = Some (10, [], [command]).
Proof. reflexivity. Qed.

Example test_redo :
  observe (session 10 None [DoExecute command; DoUndo; DoRedo] boot)
  = Some (20, [command], []).
Proof. reflexivity. Qed.

Example test_clear :
  observe (session 10 None [DoExecute command; DoUndo; DoClear] boot)
  = Some (10, [], []).
Proof. reflexivity. Qed.

Example test_maxStackSize_1 :
  observe (session 0 (with_max 3) four boot)
  = Some (4, [set_to 2; set_to 3; set_to 4], []).
Proof. reflexivity. Qed.

Example test_maxStackSize_2 :
  observe (session 0 (with_max 3) (four ++ [DoUndo; DoUndo; DoUndo]) boot)
  = Some (1, [], [set_to 4; set_to 3; set_to 2]).
Proof. reflexivity. Qed.

Example test_maxStackSize_3 :
  observe (session 0 (with_max 3)
             (four ++ [DoUndo; DoUndo; DoUndo; DoRedo; DoRedo; DoRedo;
                       DoExecute newCommand]) boot)
  = Some (10, [set_to 3; set_to 4; newCommand], []).
Proof. reflexivity. Qed.

End CounterTests.

(** * The claims on the commands of the test suite *)

Import Counter.

(** C1. [undo] changes the state it is handed: the state [executed], whose
    undo stack holds [command], has an empty undo stack once [undo] has
    returned; [redo] does the same to the redo stack of [undone]. *)
Theorem undo_and_redo_mutate_their_input :
  (stack_undos executed executed_store = [command] ∧
   observe (undo executed executed_store) = Some (10, [], [command]) ∧
   stack_undos executed (undo executed executed_store).2 = []) ∧
  (stack_redos undone undone_store = [command] ∧
   observe (redo undone undone_store) = Some (20, [command], []) ∧
   stack_redos undone (redo undone undone_store).2 = []).
Proof. repeat split; reflexivity. Qed.

(** C2. When the inverse callback throws, [undo] lets the exception
    through, but it has taken the command off the undo stack of the state
    it was handed before the callback ran: the command is lost.  [redo]
    does the same to the redo stack when the forward callback throws. *)
Theorem throwing_undo_has_already_popped :
  (stack_undos armed armed_store = [fragile] ∧
   (undo armed armed_store).1 = Thrown "undo failed"%string ∧
   stack_undos armed (undo armed armed_store).2 = []) ∧
  (stack_redos parked parked_store_flagged = [flaky] ∧
   (redo parked parked_store_flagged).1 = Thrown "execute failed"%string ∧
   stack_redos parked (redo parked parked_store_flagged).2 = []).
Proof. repeat split; reflexivity. Qed.

(** C3. The code departs from the claim: a state created with
    [maxStackSize] zero keeps the command it executes, so its undo stack
    is not empty, and after an [undo] the command sits on the redo
    stack.  The guard of the shift finds zero falsy and never compares
    the length with it. *)
Theorem zero_bound_keeps_the_command :
  createStack 0 (with_max 0) boot = (Returned zeroed, fresh_store) ∧
  get_maxStackSize (options zeroed) = Some 0 ∧
  observe (execute zeroed command fresh_store) = Some (20, [command], []) ∧
  [command] ≠ [] ∧
  observe (session 0 (with_max 0) [DoExecute command; DoUndo] boot)
    = Some (10, [], [command]).
Proof. repeat split; try reflexivity. discriminate. Qed.

(** C4. The code departs from the claim: with [maxStackSize] set to
    zero, two executions leave two commands on the undo stack, more
    than the bound. *)
Theorem zero_bound_is_exceeded :
  observe (session 0 (with_max 0) [DoExecute command; DoExecute keep] boot)
    = Some (20, [command; keep], []) ∧
  ¬ (Z.of_nat (length [command; keep]) ≤ 0).
Proof. split; [reflexivity|]. simpl. lia. Qed.

(** C5. The code departs from the claim: under [maxStackSize] zero the
    stack with the command appended is longer than the bound, and
    [execute] removes nothing from its front. *)
Theorem execute_at_zero_bound_removes_nothing :
  createStack 0 (with_max 0) boot = (Returned zeroed, fresh_store) ∧
  get_maxStackSize (options zeroed) = Some 0 ∧
  0 < Z.of_nat (length (stack_undos zeroed fresh_store ++ [keep])) ∧
  observe (execute zeroed keep fresh_store)
    = Some (20, stack_undos zeroed fresh_store ++ [keep], []) ∧
  stack_undos zeroed fresh_store ++ [keep]
    ≠ tail (stack_undos zeroed fresh_store ++ [keep]).
Proof. repeat split; try reflexivity. discriminate. Qed.

(** Against C6 as stated: [keep] is executed on a state whose undo stack
    ends with [keep]; its inverse callback returns the current value,
    and after [undo (execute s keep)] the undo stack still ends with
    [keep]. *)
Lemma same_command_is_still_on_top :
  cmd_undo keep (world kept_store) = (Returned (current kept), false) ∧
  observe (bind (execute kept keep) undo kept_store)
    = Some (current kept, [keep], [keep]) ∧
  last [keep] = Some keep.
Proof. repeat split; reflexivity. Qed.

(** Against C7 as stated: the undo stack of [astray] ends with a command
    whose forward callback is constant, yet [redo (undo astray)] has the
    value of that callback, 1, and not the current value of [astray], 7. *)
Lemma redo_does_not_restore_current :
  last (stack_undos astray astray_store) = Some (set_to 1) ∧
  (∀ w, cmd_execute (set_to 1) w = (Returned 1, w)) ∧
  observe (bind (undo astray) redo astray_store)
    = Some (1, [set_to 1], [lossy]) ∧
  current astray ≠ 1.
Proof. repeat split; try reflexivity. discriminate. Qed.

(** * The theorems at work on the commands of the test suite *)

(** The default bound, 10, is at least 1. *)
Lemma fresh_bound_at_least_one : bound_at_least_one (options fresh).
Proof. intros k [= <-]. lia. Defined.

(** [executed] is reached by [createStack] and one [execute]. *)
Lemma reach_executed : reach executed_store [executed; fresh].
Proof.
  apply (reach_step fresh_store [fresh] (DoExecute command) fresh);
    [|left|reflexivity].
  apply (reach_create boot [] 10 None); [apply reach_start|reflexivity].
Defined.

(** C8 on the state that [createStack] returns. *)
Lemma empty_stack_is_noop_witness :
  stack_undos fresh fresh_store = [] ∧
  undo fresh fresh_store = (Returned fresh, fresh_store) ∧
  stack_redos fresh fresh_store = [] ∧
  redo fresh fresh_store = (Returned fresh, fresh_store).
Proof.
  destruct (empty_stack_is_noop fresh fresh_store) as [Hu Hr].
  split; [reflexivity|]. split; [apply Hu; reflexivity|].
  split; [reflexivity|apply Hr; reflexivity].
Defined.

(** C10 on the first execution under [maxStackSize] [undefined]. *)
Lemma explicit_undefined_is_unbounded_witness :
  let s := mkState 0 (mkOptions (Some None)) 0%nat 1%nat in
  let s' := mkState 20 (mkOptions (Some None)) 2%nat 3%nat in
  let m' := mkMachine false [[]; []; [command]; []] [Forward command] in
  session 0 with_undefined [] boot = (Returned s, fresh_store) ∧
  step (DoExecute command) s fresh_store = (Returned s', m') ∧
  get_maxStackSize (options s') = None ∧
  nothing_evicted (DoExecute command) s fresh_store s' m'.
Proof.
  cbv zeta. split; [reflexivity|]. split; [reflexivity|].
  apply (proj1 (proj2 (explicit_undefined_is_unbounded 0 boot)) []);
    reflexivity.
Defined.

(** C9 on [executed] under the default bound. *)
Lemma only_execute_evicts_witness :
  reach executed_store [executed; fresh] ∧
  executed ∈ [executed; fresh] ∧
  get_maxStackSize (options executed) = Some 10 ∧
  0 < 10 ∧
  last (stack_undos executed executed_store) = Some command ∧
  Z.of_nat (length (stack_undos executed executed_store)
            + length (stack_redos executed executed_store)) ≤ 10 ∧
  exceeds (options executed)
    (length (stack_redos executed executed_store ++ [command])) = false.
Proof.
  split; [exact reach_executed|]. split; [left|].
  split; [reflexivity|]. split; [lia|]. split; [reflexivity|].
  destruct (proj1 only_execute_evicts executed_store
              [executed; fresh] executed 10) as (Hsum & Hundo & _);
    [exact reach_executed|left|reflexivity|lia|].
  split; [exact Hsum|]. by apply (Hundo command).
Defined.

(** C6, amended, on the test of [undo]. *)
Lemma execute_then_undo_witness :
  bound_at_least_one (options fresh) ∧
  cmd_execute command (world fresh_store) = (Returned 20, false) ∧
  cmd_undo command false = (Returned (current fresh), false) ∧
  ∃ s1 m1 s2 m2,
    execute fresh command fresh_store = (Returned s1, m1) ∧
    undo s1 m1 = (Returned s2, m2) ∧
    current s2 = current fresh ∧
    stack_undos s1 m1 = stack_undos s2 m2 ++ [command] ∧
    stack_redos s2 m2 = [command].
Proof.
  split; [exact fresh_bound_at_least_one|].
  split; [reflexivity|]. split; [reflexivity|].
  exact (execute_then_undo fresh command fresh_store 20 false false
           fresh_bound_at_least_one eq_refl eq_refl).
Defined.

(** C7, amended, on the test of [redo]. *)
Lemma undo_then_redo_witness :
  undos executed ≠ redos executed ∧
  bound_at_least_one (options executed) ∧
  stack_undos executed executed_store = [] ++ [command] ∧
  (∀ w, cmd_execute command w = (Returned (current executed), w)) ∧
  cmd_undo command (world executed_store) = (Returned 10, false) ∧
  ∃ s1 m1 s2 m2,
    undo executed executed_store = (Returned s1, m1) ∧
    redo s1 m1 = (Returned s2, m2) ∧
    current s2 = current executed ∧
    calls m2 = calls executed_store ++ [Inverse command; Forward command] ∧
    last (stack_undos s2 m2) = Some command ∧
    stack_redos s1 m1 = stack_redos s2 m2 ++ [command].
Proof.
  assert (undos executed ≠ redos executed) as Hne by (simpl; lia).
  split; [exact Hne|]. split; [exact fresh_bound_at_least_one|].
  split; [reflexivity|]. split; [reflexivity|]. split; [reflexivity|].
  exact (proj1 undo_then_redo executed executed_store [] command 10 false
           Hne fresh_bound_at_least_one eq_refl (λ w, eq_refl) eq_refl).
Defined.

(** * The further properties at work *)

(** The callbacks of the commands that set the counter return. *)
Lemma set_to_returns (cs : list Cmd) :
  Forall (λ c, ∃ n, c = set_to n) cs →
  ∀ c, c ∈ cs →
    always_returns (cmd_undo c) ∧ always_returns (cmd_execute c).
Proof.
  intros Hall c Hc.
  destruct (proj1 (Forall_forall _ _) Hall c Hc) as [n ->].
  split; intros w; by eexists _, _.
Defined.

Lemma executed_valid : valid executed executed_store.
Proof. repeat split; simpl; lia. Defined.

Lemma reach_negated : reach fresh_store [negated].
Proof.
  apply (reach_create boot [] 0 (with_max (-1)));
    [apply reach_start|reflexivity].
Defined.

Lemma createStack_result_witness :
  ∃ s m', createStack 10 (with_max 5) boot = (Returned s, m') ∧
          get_maxStackSize (options s) = Some 5.
Proof.
  destruct (createStack_result 10 (with_max 5) boot)
    as (s & m' & Hc & _ & _ & _ & _ & Hn & _).
  exists s, m'. split; [exact Hc|]. apply Hn. reflexivity.
Defined.

Lemma can_tells_whether_it_acts_witness :
  ∃ b, can_undo executed executed_store = (Returned b, executed_store) ∧
       (b = false ↔ undo executed executed_store
                    = (Returned executed, executed_store)).
Proof. exact (proj1 (can_tells_whether_it_acts executed executed_store)). Defined.

Lemma clear_result_witness :
  valid executed executed_store ∧
  ∃ s' m', clear executed executed_store = (Returned s', m') ∧
           stack_undos s' m' = [] ∧
           stack_undos executed m' = stack_undos executed executed_store.
Proof.
  split; [exact executed_valid|].
  destruct (clear_result executed executed_store)
    as (s' & m' & Hc & _ & _ & Hu & _ & _ & _ & Hkeep & _).
  exists s', m'. split; [exact Hc|]. split; [exact Hu|].
  exact (proj1 (Hkeep executed_valid)).
Defined.

Lemma execute_only_allocates_witness :
  cmd_execute flaky (world parked_store_flagged)
    = (Thrown "execute failed"%string, true) ∧
  (execute parked flaky parked_store_flagged).1
    = Thrown "execute failed"%string ∧
  heap (execute parked flaky parked_store_flagged).2
    = heap parked_store_flagged.
Proof.
  split; [reflexivity|].
  destruct (execute_only_allocates parked flaky parked_store_flagged)
    as (_ & _ & Hthrow).
  destruct (Hthrow "execute failed"%string true eq_refl) as (H1 & H2 & _).
  split; [exact H1|exact H2].
Defined.

Lemma undo_redo_footprint_witness :
  (3 < length (heap executed_store))%nat ∧ 3%nat ≠ undos executed ∧
  read 3%nat (heap (undo executed executed_store).2)
    = read 3%nat (heap executed_store).
Proof.
  assert (3 < length (heap executed_store))%nat as Hlt by (simpl; lia).
  assert (3%nat ≠ undos executed) as Hne by (simpl; lia).
  split; [exact Hlt|]. split; [exact Hne|].
  exact (proj2 (proj1 (undo_redo_footprint executed executed_store))
           3%nat Hlt Hne).
Defined.

Lemma execute_forgets_redos_witness :
  stack_redos undone undone_store = [command] ∧
  cmd_execute newCommand (world undone_store) = (Returned 10, false) ∧
  ∃ s' m',
    execute undone newCommand undone_store = (Returned s', m') ∧
    can_redo s' m' = (Returned false, m') ∧
    redo s' m' = (Returned s', m').
Proof.
  split; [reflexivity|]. split; [reflexivity|].
  exact (execute_forgets_redos undone newCommand undone_store 10 false
           eq_refl).
Defined.

Lemma options_fixed_at_creation_witness :
  session 0 (with_max 3) four boot = (Returned filled, filled_store) ∧
  get_maxStackSize (options filled) = Some 3.
Proof.
  split; [reflexivity|].
  exact (proj1 (options_fixed_at_creation 0 (with_max 3) four boot
                  filled filled_store eq_refl)).
Defined.

Lemma reachable_states_are_valid_witness :
  reach executed_store [executed; fresh] ∧
  fresh ∈ [executed; fresh] ∧
  valid fresh executed_store.
Proof.
  assert (fresh ∈ [executed; fresh]) as Hin by (right; left).
  split; [exact reach_executed|]. split; [exact Hin|].
  exact (reachable_states_are_valid executed_store [executed; fresh] fresh
           reach_executed Hin).
Defined.

Lemma undo_all_redo_all_witness :
  undos filled ≠ redos filled ∧
  stack_undos filled filled_store = [set_to 2] ++ [set_to 3; set_to 4] ∧
  roomy (options filled) 3 ∧
  ∃ s1 m1 s2 m2,
    run [DoUndo; DoUndo] filled filled_store = (Returned s1, m1) ∧
    stack_undos s1 m1 = [set_to 2] ∧
    stack_redos s1 m1 = [set_to 4; set_to 3] ∧
    run [DoRedo; DoRedo] s1 m1 = (Returned s2, m2) ∧
    stack_undos s2 m2 = [set_to 2; set_to 3; set_to 4] ∧
    stack_redos s2 m2 = [].
Proof.
  assert (undos filled ≠ redos filled) as Hne by (simpl; lia).
  assert (roomy (options filled) 3) as Hroom by (right; simpl; lia).
  split; [exact Hne|]. split; [reflexivity|]. split; [exact Hroom|].
  apply (undo_all_redo_all filled filled_store
           [set_to 2] [set_to 3; set_to 4] [] Hne eq_refl eq_refl Hroom).
  apply set_to_returns. repeat constructor; by eexists.
Defined.

Lemma executes_keep_the_latest_witness :
  get_maxStackSize (options bounded) = Some (Z.of_nat 3) ∧
  (length (stack_undos bounded fresh_store) ≤ 3)%nat ∧
  ∃ s' m',
    run four bounded fresh_store = (Returned s', m') ∧
    stack_undos s' m' = [set_to 2; set_to 3; set_to 4] ∧
    stack_redos s' m' = [].
Proof.
  assert (length (stack_undos bounded fresh_store) ≤ 3)%nat as Hlen
    by (simpl; lia).
  split; [reflexivity|]. split; [exact Hlen|].
  apply (executes_keep_the_latest
           [set_to 1; set_to 2; set_to 3; set_to 4]
           bounded fresh_store 3 eq_refl ltac:(lia) Hlen).
  intros c Hc.
  apply (set_to_returns [set_to 1; set_to 2; set_to 3; set_to 4]);
    [repeat constructor; by eexists|exact Hc].
Defined.

Lemma negative_bound_keeps_nothing_witness :
  reach fresh_store [negated] ∧ negated ∈ [negated] ∧
  get_maxStackSize (options negated) = Some (-1) ∧ -1 < 0 ∧
  cmd_execute command (world fresh_store) = (Returned 20, false) ∧
  ∃ s' m',
    execute negated command fresh_store = (Returned s', m') ∧
    current s' = 20 ∧
    stack_undos s' m' = [] ∧ stack_redos s' m' = [].
Proof.
  assert (negated ∈ [negated]) as Hin by left.
  split; [exact reach_negated|]. split; [exact Hin|].
  split; [reflexivity|]. split; [lia|]. split; [reflexivity|].
  destruct (negative_bound_keeps_nothing fresh_store [negated] negated (-1)
              reach_negated Hin eq_refl ltac:(lia)) as (_ & _ & Hex).
  exact (Hex command 20 false eq_refl).
Defined.

Lemma transitions_enable_each_other_witness :
  bound_at_least_one (options fresh) ∧
  execute fresh command fresh_store = (Returned executed, executed_store) ∧
  can_undo executed executed_store = (Returned true, executed_store).
Proof.
  split; [exact fresh_bound_at_least_one|]. split; [reflexivity|].
  exact (proj1 (transitions_enable_each_other fresh fresh_store
                  fresh_bound_at_least_one)
           command executed executed_store eq_refl).
Defined.
